(** * js-libp2p-kad-dht: utilities and peer routing

    A shallow embedding of [src/utils.js] (buffers, keys, base32, XOR
    sorting, [pathSize]) and of [src/peer-routing/index.js] ([findPeer],
    [getClosestPeers], [getPublicKey]), with the properties the design
    document states about them. *)

From Stdlib Require Import ZArith List String Ascii Bool Lia QArith Qround.
From Stdlib Require Import Sorted Permutation.
Import ListNotations.

Local Open Scope Z_scope.

(** ** Buffers

    A Node [Buffer] is a sequence of numbers in [0, 256). *)

Definition bytes := list Z.

Definition is_byte (b : Z) : Prop := 0 <= b < 256.
Definition is_buffer (buf : bytes) : Prop := Forall is_byte buf.

Fixpoint bytes_eqb (a b : bytes) : bool :=
  match a, b with
  | [], [] => true
  | x :: a', y :: b' => (x =? y) && bytes_eqb a' b'
  | _, _ => false
  end.

(** JavaScript strings are sequences of code units. *)
Definition code_units (s : string) : list Z :=
  map (fun c => Z.of_N (N_of_ascii c)) (list_ascii_of_string s).

(** [Buffer.from(str)] for the ASCII literals of this code base: one byte
    per character. *)
Definition Buffer_from (s : string) : bytes := code_units s.

(** [buf.toString()]: UTF-8 decoding.  An ASCII byte decodes to its own code
    unit.  A byte of 0x80 and above belongs to a multi-byte or ill-formed
    sequence, all of whose code units are non-ASCII; the replacement
    character U+FFFD stands for them here. *)
Definition Buffer_toString (buf : bytes) : list Z :=
  map (fun b => if b <? 128 then b else 65533) buf.

(** [buf.slice(start, end)] and [buf.slice(start)] for non-negative bounds
    (both are clamped to the length). *)
Definition Buffer_slice (buf : bytes) (s e : nat) : bytes :=
  firstn (e - s) (skipn s buf).
Definition Buffer_slice_from (buf : bytes) (s : nat) : bytes := skipn s buf.

Definition Buffer_concat (l : list bytes) : bytes := List.concat l.

(** Big-endian reading of a buffer as an unsigned integer. *)
Definition be_value (buf : bytes) : Z :=
  fold_left (fun acc b => acc * 256 + b) buf 0.

(** ** Errors and fallible results *)

Inductive Error :=
| Coded (code : string)   (* [errcode(err, code)] *)
| PlainError (message : string)
| TimeoutError            (* the rejection of p-timeout *)
| TypeError.              (* a property read or written on [undefined] *)

Definition result (A : Type) : Type := (Error + A)%type.

Definition bindR {A B} (c : result A) (k : A -> result B) : result B :=
  match c with
  | inl e => inl e
  | inr a => k a
  end.

Declare Scope result_scope.
Delimit Scope result_scope with result.
Notation "x <- c ;; k" := (bindR c (fun x => k))
  (at level 61, c at next level, right associativity) : result_scope.

Fixpoint mapR {A B} (f : A -> result B) (l : list A) : result (list B) :=
  match l with
  | [] => inr []
  | x :: l' =>
      (y <- f x ;; ys <- mapR f l' ;; inr (y :: ys))%result
  end.

(** [Array.prototype.sort(cmp)]: a stable sort.  With a comparator that is a
    total preorder on the elements, every stable sort gives the same array;
    insertion from the right is the one written here.  An exception of the
    comparator aborts the sort. *)
Section ArraySort.
Context {A : Type} (cmp : A -> A -> result Z).

Fixpoint insert_sorted (x : A) (l : list A) : result (list A) :=
  match l with
  | [] => inr [x]
  | y :: l' =>
      (c <- cmp x y ;;
       if c <=? 0 then inr (x :: y :: l')
       else (r <- insert_sorted x l' ;; inr (y :: r)))%result
  end.

Fixpoint Array_sort (l : list A) : result (list A) :=
  match l with
  | [] => inr []
  | x :: l' => (s <- Array_sort l' ;; insert_sorted x s)%result
  end.
End ArraySort.

(** ** Peer ids *)

(** A public key, by its marshalled bytes. *)
Definition PubKey := bytes.

(** [new PeerId(id, privKey, pubKey)]. *)
Record PeerId := new_PeerId {
  id : bytes;
  privKey : option bytes;
  pubKey : option PubKey
}.

(** [a.isEqual(b)] compares the id bytes. *)
Definition isEqual (a b : PeerId) : bool := bytes_eqb (id a) (id b).

(** ** base32.js

    [utils.encodeBase32] drives the streaming [Encoder] of the base32.js
    dependency, constructed without options: the alphabet stays the
    prototype default, the RFC 4648 one, and [lc] is not requested. *)

Module base32.

Definition rfc4648_alphabet : string := "ABCDEFGHIJKLMNOPQRSTUVWXYZ234567".

Record Encoder := mkEncoder {
  buf : string;
  shift : Z;
  carry : Z;
  alphabet : string
}.

(** [new base32.Encoder()]. *)
Definition new_Encoder : Encoder :=
  {| buf := ""; shift := 3; carry := 0; alphabet := rfc4648_alphabet |}.

(** [alphabet[i]] as a one-character string. *)
Definition charAt (s : string) (i : Z) : string :=
  match String.get (Z.to_nat i) s with
  | Some c => String c EmptyString
  | None => "undefined"
  end.

(** One turn of the loop of [Encoder.prototype.write]. *)
Definition write_byte (e : Encoder) (byte : Z) : Encoder :=
  let shift0 := shift e in
  let symbol := Z.lor (carry e) (Z.shiftr byte shift0) in
  let buf1 := (buf e ++ charAt (alphabet e) (Z.land symbol 31))%string in
  let '(shift1, buf2) :=
    if 5 <? shift0 then
      let shift1 := shift0 - 5 in
      let symbol := Z.shiftr byte shift1 in
      (shift1, (buf1 ++ charAt (alphabet e) (Z.land symbol 31))%string)
    else (shift0, buf1) in
  let shift2 := 5 - shift1 in
  let carry' := Z.shiftl byte shift2 in
  let shift3 := 8 - shift2 in
  {| buf := buf2; shift := shift3; carry := carry'; alphabet := alphabet e |}.

Definition write (e : Encoder) (b : bytes) : Encoder :=
  fold_left write_byte b e.

(** [finalize()] flushes the pending bits, if any, and returns the text. *)
Definition finalize (e : Encoder) : string :=
  if shift e =? 3 then buf e
  else (buf e ++ charAt (alphabet e) (Z.land (carry e) 31))%string.

(** The character map of RFC 4648: the position of a letter in the
    alphabet, with the digits 0 and 1 read as the letters O and I. *)
Fixpoint index_of (c : ascii) (s : string) (i : Z) : option Z :=
  match s with
  | EmptyString => None
  | String x s' => if Ascii.eqb x c then Some i else index_of c s' (i + 1)
  end.

Definition rfc4648_charmap (c : ascii) : option Z :=
  if Ascii.eqb c "0" then Some 14
  else if Ascii.eqb c "1" then Some 8
  else index_of c rfc4648_alphabet 0.

Record Decoder := mkDecoder {
  dec_buf : list Z;
  dec_shift : Z;
  dec_carry : Z
}.

(** [new base32.Decoder()]. *)
Definition new_Decoder : Decoder :=
  {| dec_buf := []; dec_shift := 8; dec_carry := 0 |}.

(** [str.toUpperCase()] on ASCII text. *)
Definition upper_char (c : ascii) : ascii :=
  let n := N_of_ascii c in
  if ((97 <=? n) && (n <=? 122))%N then ascii_of_N (n - 32) else c.

Fixpoint toUpperCase (s : string) : string :=
  match s with
  | EmptyString => EmptyString
  | String c s' => String (upper_char c) (toUpperCase s')
  end.

(** The callback of [forEach] in [Decoder.prototype.write]; a character
    outside the map reads as [undefined & 0xff], that is 0. *)
Definition decode_char (d : Decoder) (char : ascii) : Decoder :=
  if Ascii.eqb char "=" then d
  else
    let symbol :=
      match rfc4648_charmap char with
      | Some v => Z.land v 255
      | None => 0
      end in
    let shift1 := dec_shift d - 5 in
    if 0 <? shift1 then
      {| dec_buf := dec_buf d; dec_shift := shift1;
         dec_carry := Z.lor (dec_carry d) (Z.shiftl symbol shift1) |}
    else if shift1 <? 0 then
      {| dec_buf := dec_buf d ++ [Z.lor (dec_carry d) (Z.shiftr symbol (- shift1))];
         dec_shift := shift1 + 8;
         dec_carry := Z.land (Z.shiftl symbol (shift1 + 8)) 255 |}
    else
      {| dec_buf := dec_buf d ++ [Z.lor (dec_carry d) symbol];
         dec_shift := 8; dec_carry := 0 |}.

Fixpoint decode_chars (d : Decoder) (s : string) : Decoder :=
  match s with
  | EmptyString => d
  | String c s' => decode_chars (decode_char d c) s'
  end.

Definition decoder_write (d : Decoder) (str : string) : Decoder :=
  decode_chars d (toUpperCase str).

Definition decoder_finalize (d : Decoder) : list Z :=
  if negb (dec_shift d =? 8) && negb (dec_carry d =? 0)
  then dec_buf d ++ [dec_carry d]
  else dec_buf d.

End base32.

(** ** RFC 4648 base 32, as the standard words it

    The input is read as a bit string, most significant bit first, cut into
    groups of five bits; a short last group is completed with zero bits; every
    group indexes the alphabet.  No "=" padding is appended. *)

Module RFC4648.

Definition upper : string := "ABCDEFGHIJKLMNOPQRSTUVWXYZ234567".
Definition lower : string := "abcdefghijklmnopqrstuvwxyz234567".

Definition bits_of_byte (b : Z) : list bool :=
  map (Z.testbit b) [7; 6; 5; 4; 3; 2; 1; 0].

Definition bits_of (buf : bytes) : list bool := flat_map bits_of_byte buf.

Definition quintet (a b c d e : bool) : Z :=
  16 * Z.b2z a + 8 * Z.b2z b + 4 * Z.b2z c + 2 * Z.b2z d + Z.b2z e.

Fixpoint quintets (l : list bool) : list Z :=
  match l with
  | [] => []
  | [a] => [quintet a false false false false]
  | [a; b] => [quintet a b false false false]
  | [a; b; c] => [quintet a b c false false]
  | [a; b; c; d] => [quintet a b c d false]
  | a :: b :: c :: d :: e :: r => quintet a b c d e :: quintets r
  end.

Definition letters (alphabet : string) (l : list Z) : string :=
  fold_right (fun i s => (base32.charAt alphabet i ++ s)%string) ""%string l.

Definition encode_nopad (alphabet : string) (buf : bytes) : string :=
  letters alphabet (quintets (bits_of buf)).

End RFC4648.

(** [new Key(s, false)] of interface-datastore: the string is kept as given. *)
Record Key := new_Key { key_string : string }.

(** ** xor-distance *)

Module distance.

Definition length_error : Error :=
  PlainError "Inputs should have the same length".

Fixpoint xor_bytes (a b : bytes) : bytes :=
  match a, b with
  | x :: a', y :: b' => Z.lxor x y :: xor_bytes a' b'
  | _, _ => []
  end.

(** [distance(a, b)]. *)
Definition dist (a b : bytes) : result bytes :=
  if (List.length a =? List.length b)%nat then inr (xor_bytes a b)
  else inl length_error.

Fixpoint compare_from (a b : bytes) : Z :=
  match a, b with
  | x :: a', y :: b' =>
      if x =? y then compare_from a' b'
      else if x <? y then -1 else 1
  | _, _ => 0
  end.

(** [distance.compare(a, b)]. *)
Definition compare (a b : bytes) : result Z :=
  if (List.length a =? List.length b)%nat then inr (compare_from a b)
  else inl length_error.

End distance.

(** ** utils.js *)

Module utils.

Section Digest.
(** [multihashing.digest(buf, 'sha2-256')]. *)
Variable sha2_256 : bytes -> bytes.

Definition convertBuffer (buf : bytes) : bytes := sha2_256 buf.

Definition convertPeerId (peer : PeerId) : bytes := sha2_256 (id peer).

Definition xorCompare (a b : PeerId * bytes) : result Z :=
  distance.compare (snd a) (snd b).

Definition sortClosestPeers (peers : list PeerId) (target : bytes)
  : result (list PeerId) :=
  (distances <- mapR (fun peer =>
                  let id := convertPeerId peer in
                  d <- distance.dist id target ;;
                  inr (peer, d)) peers ;;
   sorted <- Array_sort xorCompare distances ;;
   inr (map fst sorted))%result.
End Digest.

Definition encodeBase32 (buf : bytes) : string :=
  let enc := base32.new_Encoder in
  base32.finalize (base32.write enc buf).

(** [Buffer.from(array)]: every entry is taken modulo 256. *)
Definition Buffer_from_array (l : list Z) : bytes :=
  map (fun v => Z.land v 255) l.

Definition decodeBase32 (raw : string) : bytes :=
  let dec := base32.new_Decoder in
  Buffer_from_array (base32.decoder_finalize (base32.decoder_write dec raw)).

Definition bufferToKey (buf : bytes) : Key :=
  new_Key ("/" ++ encodeBase32 buf).

Definition keyForPublicKey (peer : PeerId) : bytes :=
  Buffer_concat [Buffer_from "/pk/"; id peer].

Definition isPublicKeyKey (key : bytes) : bool :=
  bytes_eqb (Buffer_toString (Buffer_slice key 0 4)) (code_units "/pk/").

Definition fromPublicKeyKey (key : bytes) : PeerId :=
  new_PeerId (Buffer_slice_from key 4) None None.

(** [Math.ceil] on the quotient of two numbers; the quotient of integers is
    taken exactly. *)
Definition Math_ceil (q : Q) : Z := Qceiling q.

Definition pathSize (resultsWanted numPaths : Z) : Z :=
  Math_ceil (inject_Z resultsWanted / inject_Z numPaths)%Q.

End utils.

(** ** Messages, peer data and query results *)

Definition Multiaddr := bytes.

(** An entry of [closerPeers], and what [findPeer] returns:
    [{ id, multiaddrs }]. *)
Record PeerData := mkPeerData {
  peer_id : PeerId;
  multiaddrs : list Multiaddr
}.

(** An address of the address book: [{ multiaddr }]. *)
Record Address := mkAddress { multiaddr : Multiaddr }.

(** What [peerStore.get] returns: [{ id, addresses }]. *)
Record StoredPeer := mkStoredPeer {
  stored_id : PeerId;
  addresses : list Address
}.

Inductive MessageType :=
| PUT_VALUE | GET_VALUE | ADD_PROVIDER | GET_PROVIDERS | FIND_NODE | PING.

(** A record of libp2p-record, as far as it is read here. *)
Record DhtRecord := mkDhtRecord {
  record_key : bytes;
  record_value : option bytes
}.

(** Modelled from the spec: [src/message/index.js] is not among the sources.
    Its section 4.E gives a message a type, a key, an optional record, the lists
    [closerPeers] and [providerPeers] and a cluster level; the constructor
    call [new Message(type, key, level)] leaves the rest empty. *)
Record Message := mkMessage {
  type : MessageType;
  key : bytes;
  clusterLevelRaw : Z;
  closerPeers : list PeerData;
  providerPeers : list PeerData;
  record : option DhtRecord
}.

Definition new_Message (t : MessageType) (k : bytes) (level : Z) : Message :=
  {| type := t; key := k; clusterLevelRaw := level;
     closerPeers := []; providerPeers := []; record := None |}.

(** What a path's query function returns to the query engine; a field that
    the object literal does not have is [None]. *)
Record QueryStep := mkQueryStep {
  step_peer : option PeerData;
  step_closerPeers : option (list PeerData);
  queryComplete : option bool;
  pathComplete : option bool
}.

(** One entry of [result.paths]. *)
Record PathResult := mkPathResult {
  success : bool;
  path_peer : option PeerData
}.

(** What [query.run] resolves to. [finalSet] is a [Set], read in insertion
    order by [Array.from]. *)
Record QueryResult := mkQueryResult {
  paths : list PathResult;
  finalSet : option (list PeerId)
}.

(** A run of the query engine: how it settles and after how many
    milliseconds. *)
Record Run := mkRun {
  settled : result (option QueryResult);
  elapsed : Z
}.

(** Effects that leave the process. *)
Inductive Event :=
| EvSendRequest (to : PeerId) (msg : Message)
| EvQueryRun (key : bytes) (seeds : list PeerId)
| EvQueryStop
| EvGet (key : bytes).

(** [errcode(err, code)] of err-code 2: an [Error] is given the code;
    anything else, a string for one, is refused with a [TypeError]. *)
Inductive ErrArg :=
| AnError (message : string)   (* [new Error(message)] *)
| AString (message : string).

Definition errcode (err : ErrArg) (code : string) : result Error :=
  match err with
  | AnError _ => inr (Coded code)
  | AString _ => inl TypeError
  end.

(** The promise an [async] function returns, held without [await]: what it
    settles to is out of reach of the code that holds it. *)
Record Promise (A : Type) := mkPromise { resolution : result A }.
Arguments mkPromise {A}.
Arguments resolution {A}.

(** [promise.isEqual(peer)]: a promise has no such method, and the call
    raises a [TypeError]. *)
Definition Promise_isEqual {A} (p : Promise A) (peer : PeerId) : result bool :=
  inl TypeError.

(** [promise.pubKey]: [undefined]. *)
Definition Promise_pubKey {A} (p : Promise A) : option PubKey := None.

(** [pTimeout(promise, ms)]: the promise's own outcome if it settles before
    [ms] milliseconds have passed, else a [TimeoutError]; a negative [ms]
    is refused. *)
Definition pTimeout {A} (settles : result A) (after ms : Z) : result A :=
  if ms <? 0 then inl TypeError
  else if ms <=? after then inl TimeoutError
  else settles.

(** Modelled from the spec: [src/constants.js] is not among the sources.
    The query timeout defaults to 60 s, 60000 ms in the documentation of
    [findPeer]. *)
Definition minute : Z := 60 * 1000.

Record FindPeerOptions := mkFindPeerOptions { timeout : option Z }.
Record ClosestPeersOptions := mkClosestPeersOptions { shallow : option bool }.

(** ** The node and its collaborators

    The peer store [PS] and the routing table [RT] are external to the
    module; the network, the query engine and [dht.get] are met through what
    they answer. *)

Section Node.
Variables PS RT : Type.

Record World := mkWorld {
  peerStore : PS;
  routingTable : RT;
  events : list Event
}.

(** Asynchronous code that may throw: the effects made before an exception
    stay. *)
Definition M (A : Type) : Type := World -> result A * World.

Definition ret {A} (a : A) : M A := fun w => (inr a, w).
Definition throw {A} (e : Error) : M A := fun w => (inl e, w).
Definition bind {A B} (c : M A) (k : A -> M B) : M B :=
  fun w =>
    match c w with
    | (inl e, w') => (inl e, w')
    | (inr a, w') => k a w'
    end.
Definition try_catch {A} (c : M A) (handler : Error -> M A) : M A :=
  fun w =>
    match c w with
    | (inl e, w') => handler e w'
    | (inr a, w') => (inr a, w')
    end.
Definition lift {A} (r : result A) : M A := fun w => (r, w).
Definition get_world : M World := fun w => (inr w, w).
Definition with_event (w : World) (ev : Event) : World :=
  {| peerStore := peerStore w;
     routingTable := routingTable w;
     events := events w ++ [ev] |}.
Definition emit (ev : Event) : M unit := fun w => (inr tt, with_event w ev).

Record Dht := mkDht {
  kBucketSize : nat;
  peerId : PeerId;
  routingTable_find : RT -> PeerId -> option PeerId;
  routingTable_closestPeers : RT -> bytes -> nat -> list PeerId;
  peerStore_get : PS -> PeerId -> option StoredPeer;
  addressBook_add : PS -> PeerId -> list Multiaddr -> PS;
  (** the exchange behind [network.sendRequest] *)
  network_exchange : PeerId -> Message -> M Message;
  (** the lookup behind [dht.get] *)
  get_lookup : bytes -> M bytes;
  (** the engine behind [new Query(dht, key, makePath).run(peers)] *)
  query_engine : bytes -> (PeerId -> M QueryStep) -> list PeerId ->
                 World -> Run * World;
  sha2_256 : bytes -> bytes;
  (** [PeerId.createFromPubKey] *)
  PeerId_createFromPubKey : bytes -> result PeerId;
  (** [crypto.keys.unmarshalPublicKey] *)
  unmarshalPublicKey : bytes -> result PubKey
}.
End Node.

Arguments mkWorld {PS RT}.
Arguments peerStore {PS RT}.
Arguments routingTable {PS RT}.
Arguments events {PS RT}.
Arguments ret {PS RT A}.
Arguments throw {PS RT A}.
Arguments bind {PS RT A B}.
Arguments try_catch {PS RT A}.
Arguments lift {PS RT A}.
Arguments get_world {PS RT}.
Arguments with_event {PS RT}.
Arguments emit {PS RT}.
Arguments mkDht {PS RT}.
Arguments kBucketSize {PS RT}.
Arguments peerId {PS RT}.
Arguments routingTable_find {PS RT}.
Arguments routingTable_closestPeers {PS RT}.
Arguments peerStore_get {PS RT}.
Arguments addressBook_add {PS RT}.
Arguments network_exchange {PS RT}.
Arguments get_lookup {PS RT}.
Arguments query_engine {PS RT}.
Arguments sha2_256 {PS RT}.
Arguments PeerId_createFromPubKey {PS RT}.
Arguments unmarshalPublicKey {PS RT}.

Declare Scope dht_scope.
Delimit Scope dht_scope with dht.
Notation "x <- c ;; k" := (bind c (fun x => k))
  (at level 61, c at next level, right associativity) : dht_scope.
Notation "c ;; k" := (bind c (fun _ => k))
  (at level 61, right associativity) : dht_scope.

(** ** peer-routing/index.js *)

Module PeerRouting.
Section WithDht.
Context {PS RT : Type} (dht : Dht PS RT).
Local Open Scope dht_scope.

Local Abbreviation M := (M PS RT).

(** [dht.network.sendRequest(peer, msg)]. *)
Definition network_sendRequest (peer : PeerId) (msg : Message) : M Message :=
  emit (EvSendRequest peer msg) ;; network_exchange dht peer msg.

(** [dht.get(key)]. *)
Definition dht_get (k : bytes) : M bytes :=
  emit (EvGet k) ;; get_lookup dht k.

(** [dht.peerStore.addressBook.add(id, multiaddrs)]. *)
Definition addressBook_add_ (p : PeerId) (addrs : list Multiaddr) : M unit :=
  fun w => (inr tt, {| peerStore := addressBook_add dht (peerStore w) p addrs;
                       routingTable := routingTable w;
                       events := events w |}).

(** Modelled from the spec: [dht._isSelf] lives in [src/index.js], which is
    not among the sources; section 4.G has the engine filter out "self",
    the peer with the node's own id. *)
Definition _isSelf (other : PeerId) : bool := isEqual (peerId dht) other.

Definition toPeerData (peerData : StoredPeer) : PeerData :=
  {| peer_id := stored_id peerData;
     multiaddrs := map multiaddr (addresses peerData) |}.

Definition findPeerLocal (peer : PeerId) : M (option PeerData) :=
  w <- get_world ;;
  let p := routingTable_find dht (routingTable w) peer in
  let peerData :=
    match p with
    | Some p => peerStore_get dht (peerStore w) p
    | None => None
    end in
  match peerData with
  | Some peerData => ret (Some (toPeerData peerData))
  | None => ret None
  end.

Definition getValueSingle (peer : PeerId) (k : bytes) : M Message :=
  let msg := new_Message GET_VALUE k 0 in
  network_sendRequest peer msg.

Definition _findPeerSingle (peer target : PeerId) : M Message :=
  let msg := new_Message FIND_NODE (id target) 0 in
  network_sendRequest peer msg.

Fixpoint mapM {A B} (f : A -> M B) (l : list A) : M (list B) :=
  match l with
  | [] => ret []
  | x :: l' => y <- f x ;; ys <- mapM f l' ;; ret (y :: ys)
  end.

Definition closerPeersSingle (k : bytes) (peer : PeerId)
  : M (list PeerData) :=
  msg <- _findPeerSingle peer (new_PeerId k None None) ;;
  mapM (fun peerData =>
          addressBook_add_ (peer_id peerData) (multiaddrs peerData) ;;
          ret peerData)
       (filter (fun peerData => negb (_isSelf (peer_id peerData)))
               (closerPeers msg)).

(** [throw errcode(err, code)]. *)
Definition throw_errcode {A} (err : ErrArg) (code : string) : M A :=
  match errcode err code with
  | inr e => throw e
  | inl e => throw e
  end.

(** [PeerId.createFromPubKey] is an [async] function of peer-id 0.13; the
    call is not awaited, so [recPeer] is its promise. *)
Definition getPublicKeyFromNode (peer : PeerId) : M (option PubKey) :=
  let pkKey := utils.keyForPublicKey peer in
  msg <- getValueSingle peer pkKey ;;
  match record msg with
  | None =>
      throw_errcode (AString "Node not responding with its public key")
        "ERR_INVALID_RECORD"
  | Some r =>
      match record_value r with
      | None =>
          throw_errcode (AString "Node not responding with its public key")
            "ERR_INVALID_RECORD"
      | Some value =>
          let recPeer := mkPromise (PeerId_createFromPubKey dht value) in
          equal <- lift (Promise_isEqual recPeer peer) ;;
          if negb equal then
            throw_errcode (AString "public key does not match id")
              "ERR_PUBLIC_KEY_DOES_NOT_MATCH_ID"
          else ret (Promise_pubKey recPeer)
      end
  end.

(** The query function [findPeer] hands to every path. *)
Definition findPeer_queryFn (target : PeerId) (peer : PeerId) : M QueryStep :=
  msg <- _findPeerSingle peer target ;;
  match find (fun p => isEqual (peer_id p) target) (closerPeers msg) with
  | Some found =>
      ret {| step_peer := Some found; step_closerPeers := None;
             queryComplete := Some true; pathComplete := None |}
  | None =>
      ret {| step_peer := None; step_closerPeers := Some (closerPeers msg);
             queryComplete := None; pathComplete := None |}
  end.

(** [new Query(dht, key, makePath)] followed by [query.run(peers)]. *)
Definition query_run (k : bytes) (queryFn : PeerId -> M QueryStep)
           (peers : list PeerId) : M Run :=
  emit (EvQueryRun k peers) ;;
  fun w => let '(r, w') := query_engine dht k queryFn peers w in (inr r, w').

Definition query_stop : M unit := emit EvQueryStop.

(** [result.paths.forEach(...)] of [findPeer], threading [success]. *)
Fixpoint forEach_path (l : list PathResult) (success_ : bool) : M bool :=
  match l with
  | [] => ret success_
  | r :: rest =>
      if success r then
        match path_peer r with
        | None => throw TypeError
        | Some p =>
            addressBook_add_ (peer_id p) (multiaddrs p) ;;
            forEach_path rest true
        end
      else forEach_path rest success_
  end.

(** [findPeer] from "query the network" on. *)
Definition findPeer_query (target : PeerId) (timeout_ : Z)
           (peers : list PeerId) : M PeerData :=
  run <- query_run (id target) (findPeer_queryFn target) peers ;;
  let outcome := pTimeout (settled run) (elapsed run) timeout_ in
  query_stop ;;
  match outcome with
  | inl error => throw error
  | inr None => throw TypeError
  | inr (Some result) =>
      success_ <- forEach_path (paths result) false ;;
      if negb success_ then throw (Coded "ERR_NOT_FOUND")
      else
        w <- get_world ;;
        match peerStore_get dht (peerStore w) target with
        | None => throw TypeError
        | Some peerData => ret (toPeerData peerData)
        end
  end.

(** [findPeer] once the local lookup has found nothing: seeding, the check
    of the seeds against the peer store, then the query. *)
Definition findPeer_network (target : PeerId) (timeout_ : Z) : M PeerData :=
  let k := utils.convertPeerId (sha2_256 dht) target in
  w <- get_world ;;
  let peers :=
    routingTable_closestPeers dht (routingTable w) k (kBucketSize dht) in
  if (List.length peers =? 0)%nat then throw (Coded "ERR_LOOKUP_FAILED")
  else
    let found := find (fun p => isEqual p target) peers in
    let peer :=
      match found with
      | Some _ => peerStore_get dht (peerStore w) target
      | None => None
      end in
    match peer with
    | Some peer => ret (toPeerData peer)
    | None => findPeer_query target timeout_ peers
    end.

(** [options.timeout || c.minute]. *)
Definition timeout_or_default (options : FindPeerOptions) : Z :=
  match timeout options with
  | Some t => if t =? 0 then minute else t
  | None => minute
  end.

Definition findPeer (target : PeerId) (options : FindPeerOptions)
  : M PeerData :=
  let timeout_ := timeout_or_default options in
  pi <- findPeerLocal target ;;
  match pi with
  | Some pi => ret pi
  | None => findPeer_network target timeout_
  end.

(** The seeds of [findPeer]. *)
Definition findPeer_seeds (target : PeerId) (w : World PS RT) : list PeerId :=
  routingTable_closestPeers dht (routingTable w)
    (utils.convertPeerId (sha2_256 dht) target) (kBucketSize dht).

(** [findPeer] gets as far as the query: nothing is found locally, there are
    seeds, and the check of the seeds against the peer store finds nothing. *)
Definition reaches_query (target : PeerId) (w : World PS RT) : Prop :=
  fst (findPeerLocal target w) = inr None /\
  findPeer_seeds target w <> [] /\
  (find (fun p => isEqual p target) (findPeer_seeds target w) = None \/
   peerStore_get dht (peerStore w) target = None).

(** The query function [getClosestPeers] hands to every path. *)
Definition getClosestPeers_queryFn (k : bytes) (options : ClosestPeersOptions)
           (peer : PeerId) : M QueryStep :=
  closer <- closerPeersSingle k peer ;;
  ret {| step_peer := None; step_closerPeers := Some closer;
         queryComplete := None;
         pathComplete :=
           match shallow options with
           | Some true => Some true
           | _ => None
           end |}.

(** [getClosestPeers]: the peers the generator yields, in order. *)
Definition getClosestPeers (k : bytes) (options : ClosestPeersOptions)
  : M (list PeerId) :=
  let id := utils.convertBuffer (sha2_256 dht) k in
  w <- get_world ;;
  let tablePeers :=
    routingTable_closestPeers dht (routingTable w) id (kBucketSize dht) in
  run <- query_run k (getClosestPeers_queryFn k options) tablePeers ;;
  res <- lift (settled run) ;;
  match res with
  | None => ret []
  | Some res =>
      match finalSet res with
      | None => ret []
      | Some finalSet_ =>
          sorted <- lift (utils.sortClosestPeers (sha2_256 dht) finalSet_ id) ;;
          ret (firstn (kBucketSize dht) sorted)
      end
  end.

(** The [catch] branch of [getPublicKey]: "try dht directly". *)
Definition getPublicKey_fromDht (peer : PeerId) : M (option PubKey) :=
  let pkKey := utils.keyForPublicKey peer in
  value <- dht_get pkKey ;;
  pk <- lift (unmarshalPublicKey dht value) ;;
  ret (Some pk).

(** The [try]/[catch] statement of [getPublicKey]. *)
Definition getPublicKey_fetch (peer : PeerId) : M (option PubKey) :=
  try_catch (getPublicKeyFromNode peer) (fun _ => getPublicKey_fromDht peer).

(** [peerData.id = ...] updates the object [peerStore.get] returned, and the
    address book is told through [add]; without [peerData] the assignment
    raises a [TypeError]. *)
Definition getPublicKey (peer : PeerId) : M (option PubKey) :=
  w <- get_world ;;
  let peerData := peerStore_get dht (peerStore w) peer in
  let local :=
    match peerData with
    | Some peerData => pubKey (stored_id peerData)
    | None => None
    end in
  match local with
  | Some pk => ret (Some pk)
  | None =>
      pk <- getPublicKey_fetch peer ;;
      match peerData with
      | None => throw TypeError
      | Some peerData =>
          let id' := new_PeerId (id peer) None pk in
          let addrs := map multiaddr (addresses peerData) in
          addressBook_add_ id' addrs ;;
          ret pk
      end
  end.

End WithDht.
End PeerRouting.

(** ** What a run leaves in the peer store *)

Section StoreEffects.
Context {PS RT : Type} (dht : Dht PS RT).

(** The world with another peer store. *)
Definition set_peerStore (w : World PS RT) (ps : PS) : World PS RT :=
  {| peerStore := ps; routingTable := routingTable w; events := events w |}.

(** [addressBook.add] for a list of peers, first to last. *)
Definition add_peers (ps : PS) (l : list PeerData) : PS :=
  fold_left (fun ps pd => addressBook_add dht ps (peer_id pd) (multiaddrs pd))
            l ps.

(** The peers of the paths that succeeded, in path order. *)
Definition successful_peers (l : list PathResult) : list PeerData :=
  flat_map (fun r =>
              if success r then
                match path_peer r with
                | Some p => [p]
                | None => []
                end
              else []) l.

End StoreEffects.

(** ** The encoder's state, read as pending bits

    After a whole number of bytes the encoder holds [shift - 3] bits that it
    has not written out yet, left-aligned in the low five bits of [carry].
    The checks below range over the finitely many states and bytes. *)

Module Base32State.

Definition upto (n : nat) : list Z := map Z.of_nat (seq 0 n).

Definition enc (sh c : Z) : base32.Encoder :=
  {| base32.buf := ""; base32.shift := sh; base32.carry := c;
     base32.alphabet := base32.rfc4648_alphabet |}.

Definition pending (sh c : Z) : list bool :=
  firstn (Z.to_nat (sh - 3)) (map (Z.testbit c) [4; 3; 2; 1; 0]).

Definition pending_of (e : base32.Encoder) : list bool :=
  pending (base32.shift e) (Z.land (base32.carry e) 31).

Definition padded (l : list bool) : Z :=
  match RFC4648.quintets l with
  | [v] => v
  | _ => 0
  end.

Definition state_ok (sh c : Z) : bool :=
  (3 <=? sh) && (sh <=? 8) && (Z.land c 31 =? padded (pending sh (Z.land c 31))).

Fixpoint bits_eqb (a b : list bool) : bool :=
  match a, b with
  | [], [] => true
  | x :: a', y :: b' => Bool.eqb x y && bits_eqb a' b'
  | _, _ => false
  end.

Definition flushed (sh : Z) : nat := if 5 <? sh then 10%nat else 5%nat.

Definition step_check (sh c b : Z) : bool :=
  let e' := base32.write_byte (enc sh c) b in
  let bits := (pending sh c ++ RFC4648.bits_of_byte b)%list in
  implb (state_ok sh c)
    (state_ok (base32.shift e') (base32.carry e')
     && String.eqb (base32.buf e')
          (RFC4648.letters base32.rfc4648_alphabet
             (RFC4648.quintets (firstn (flushed sh) bits)))
     && (List.length (firstn (flushed sh) bits) =? flushed sh)%nat
     && bits_eqb (skipn (flushed sh) bits)
          (pending (base32.shift e') (Z.land (base32.carry e') 31))).

Definition final_check (sh c : Z) : bool :=
  implb (state_ok sh c)
    (String.eqb (base32.finalize (enc sh c))
       (RFC4648.letters base32.rfc4648_alphabet
          (RFC4648.quintets (pending sh c)))).

Definition all_pairs (F : Z -> Z -> bool) (G : Z -> Z -> Z -> bool)
           (l : list Z) (n m : nat) : bool :=
  forallb (fun sh =>
    forallb (fun c => F sh c && forallb (fun b => G sh c b) (upto m))
      (upto n)) l.

End Base32State.

(** ** Distance in the id space

    The distance between two byte strings is the XOR of their SHA-256
    digests, read as an unsigned big-endian number. *)

Definition kad_distance (sha : bytes -> bytes) (a b : bytes) : Z :=
  Z.lxor (be_value (sha a)) (be_value (sha b)).

(** A digest function gives buffers of 32 bytes. *)
Definition digest_32 (sha : bytes -> bytes) : Prop :=
  forall b, is_buffer (sha b) /\ List.length (sha b) = 32%nat.

(** ** Encoder and decoder side by side

    After at least one byte, the last byte [prev] is split between the two:
    its low [p] bits wait in the encoder, its high [8 - p] bits in the
    decoder that has read the encoder's text so far. *)

Module Base32Joint.

Definition enc_at (p prev : Z) : base32.Encoder :=
  Base32State.enc (p + 3) (Z.land (Z.shiftl prev (5 - p)) 31).

Definition dec_at (p prev : Z) : base32.Decoder :=
  {| base32.dec_buf := []; base32.dec_shift := p;
     base32.dec_carry := Z.shiftl (Z.shiftr prev p) p |}.

Definition same_decoder (d d' : base32.Decoder) : bool :=
  bytes_eqb (base32.dec_buf d) (base32.dec_buf d')
  && (base32.dec_shift d =? base32.dec_shift d')
  && (base32.dec_carry d =? base32.dec_carry d').

(** The encoder writes [b] from [enc]; the decoder reads that text from
    [dec] and must end in [dec_at] for [b] with [decoded] as output, the
    encoder in [enc_at] for [b]. *)
Definition step_agrees (enc : base32.Encoder) (dec : base32.Decoder)
           (decoded : list Z) (b : Z) : bool :=
  let e' := base32.write_byte enc b in
  let d' := base32.decoder_write dec (base32.buf e') in
  let p' := base32.shift e' - 3 in
  (1 <=? p') && (p' <=? 5)
  && Base32State.state_ok (base32.shift e') (base32.carry e')
  && (Z.land (base32.carry e') 31 =? base32.carry (enc_at p' b))
  && same_decoder d'
       {| base32.dec_buf := decoded;
          base32.dec_shift := base32.dec_shift (dec_at p' b);
          base32.dec_carry := base32.dec_carry (dec_at p' b) |}.

Definition step_check (p prev b : Z) : bool :=
  step_agrees (enc_at p prev) (dec_at p prev) [prev] b.

Definition first_check (b : Z) : bool :=
  step_agrees base32.new_Encoder base32.new_Decoder [] b.

Definition final_check (p prev : Z) : bool :=
  Base32State.state_ok (p + 3) (base32.carry (enc_at p prev))
  && bytes_eqb
       (base32.decoder_finalize
          (base32.decoder_write (dec_at p prev)
             (base32.finalize (enc_at p prev))))
       [prev].

End Base32Joint.

(** ** A small node to run the definitions on

    A peer store and a routing table kept as lists, a digest that pads or
    cuts its input to 32 bytes, and a network, a record lookup and a query
    engine given by their answers. *)

Module Toy.

Definition PS := list StoredPeer.
Definition RT := list PeerId.

Definition sha (b : bytes) : bytes :=
  map (fun x => x mod 256) (firstn 32 (b ++ repeat 0 32)).

Definition ps_get (ps : PS) (p : PeerId) : option StoredPeer :=
  find (fun e => isEqual (stored_id e) p) ps.

Definition ab_add (ps : PS) (p : PeerId) (addrs : list Multiaddr) : PS :=
  if existsb (fun e => isEqual (stored_id e) p) ps then
    map (fun e =>
           if isEqual (stored_id e) p
           then {| stored_id := stored_id e;
                   addresses := addresses e ++ map mkAddress addrs |}
           else e) ps
  else ps ++ [{| stored_id := p; addresses := map mkAddress addrs |}].

Definition rt_find (rt : RT) (p : PeerId) : option PeerId :=
  find (fun q => isEqual q p) rt.

Definition rt_closestPeers (rt : RT) (k : bytes) (n : nat) : list PeerId :=
  firstn n rt.

Definition createFromPubKey (value : bytes) : result PeerId :=
  inr {| id := sha value; privKey := None; pubKey := Some value |}.

Definition Engine : Type :=
  bytes -> (PeerId -> M PS RT QueryStep) -> list PeerId ->
  World PS RT -> Run * World PS RT.

Definition node (self : PeerId)
           (reply : PeerId -> Message -> result Message)
           (lookup : bytes -> result bytes)
           (engine : Engine) : Dht PS RT :=
  {| kBucketSize := 2;
     peerId := self;
     routingTable_find := rt_find;
     routingTable_closestPeers := rt_closestPeers;
     peerStore_get := ps_get;
     addressBook_add := ab_add;
     network_exchange := fun p m => lift (reply p m);
     get_lookup := fun k => lift (lookup k);
     query_engine := engine;
     sha2_256 := sha;
     PeerId_createFromPubKey := createFromPubKey;
     unmarshalPublicKey := fun v => inr v |}.

(** An engine that asks the first seed once. *)
Definition one_hop (ms : Z) : Engine :=
  fun _ queryFn peers w =>
    match peers with
    | [] => ({| settled := inr (Some {| paths := []; finalSet := Some [] |});
                elapsed := ms |}, w)
    | p :: _ =>
        match queryFn p w with
        | (inl _, w') =>
            ({| settled := inr (Some {| paths := [{| success := false;
                                                    path_peer := None |}];
                                        finalSet := Some [] |});
                elapsed := ms |}, w')
        | (inr step, w') =>
            ({| settled :=
                  inr (Some {| paths :=
                                 [{| success :=
                                       match queryComplete step with
                                       | Some true => true
                                       | _ => false
                                       end;
                                     path_peer := step_peer step |}];
                               finalSet :=
                                 Some (p :: match step_closerPeers step with
                                            | Some l => map peer_id l
                                            | None => []
                                            end) |});
                elapsed := ms |}, w')
        end
    end.

Definition pid (b : bytes) : PeerId :=
  {| id := b; privKey := None; pubKey := None |}.

Definition alice : PeerId := pid [1; 1].
Definition bob : PeerId := pid [2; 2].
Definition carol : PeerId := pid [3; 3].
Definition dave : PeerId := pid [200; 4].

Definition carol_data : PeerData :=
  {| peer_id := carol; multiaddrs := [[4; 10; 0; 0; 3]] |}.
Definition dave_data : PeerData :=
  {| peer_id := dave; multiaddrs := [[4; 10; 0; 0; 4]] |}.

(** Bob answers FIND_NODE with carol and dave; nobody else answers. *)
Definition reply_find (to : PeerId) (msg : Message) : result Message :=
  if isEqual to bob then
    inr {| type := type msg; key := key msg; clusterLevelRaw := 0;
           closerPeers := [dave_data; carol_data];
           providerPeers := []; record := None |}
  else inl (Coded "ERR_CONNECTION_FAILED").

(** Every node answers GET_VALUE with the same public key, [7; 7]. *)
Definition reply_key (to : PeerId) (msg : Message) : result Message :=
  inr {| type := type msg; key := key msg; clusterLevelRaw := 0;
         closerPeers := []; providerPeers := [];
         record := Some {| record_key := key msg;
                           record_value := Some [7; 7] |} |}.

Definition no_record (k : bytes) : result bytes := inl (Coded "ERR_NOT_FOUND").
Definition same_record (k : bytes) : result bytes := inr [7; 7].

(** The peer whose id is the digest of the key [7; 7]. *)
Definition keyed : PeerId := pid (sha [7; 7]).

Definition world (ps : PS) (rt : RT) : World PS RT :=
  {| peerStore := ps; routingTable := rt; events := [] |}.

Definition knows (p : PeerId) : StoredPeer :=
  {| stored_id := p; addresses := [] |}.

Definition finder : Dht PS RT := node alice reply_find no_record (one_hop 5).
Definition slow_finder : Dht PS RT :=
  node alice reply_find no_record (one_hop 60000).
Definition key_node : Dht PS RT := node alice reply_key no_record (one_hop 5).
Definition key_node_dht : Dht PS RT :=
  node alice reply_key same_record (one_hop 5).

Definition default_options : FindPeerOptions := {| timeout := None |}.
Definition deep : ClosestPeersOptions := {| shallow := None |}.

Definition nobody : PeerId := pid [9].

Definition w_bob_table : World PS RT := world [] [bob].
Definition w_empty : World PS RT := world [] [].
Definition w_bob_stored : World PS RT := world [knows bob] [].
Definition w_keyed_stored : World PS RT := world [knows keyed] [].

Definition find_carol : Message := new_Message FIND_NODE (id carol) 0.
Definition find_nobody : Message := new_Message FIND_NODE (id nobody) 0.

(** The runs of the engine that the examples meet. *)
Definition run_for (node_ : Dht PS RT) (target : PeerId)
  : Run * World PS RT :=
  query_engine node_ (id target) (PeerRouting.findPeer_queryFn node_ target)
    [bob] (with_event w_bob_table (EvQueryRun (id target) [bob])).

Definition closest_run : Run * World PS RT :=
  query_engine finder [3; 3]
    (PeerRouting.getClosestPeers_queryFn finder [3; 3] deep)
    [bob] (with_event w_bob_table (EvQueryRun [3; 3] [bob])).

(** The same node seen from carol, a node whose routing table cannot look a
    single peer up, and a node whose query engine fails. *)
Definition carol_node : Dht PS RT :=
  node carol reply_find no_record (one_hop 5).


Definition broken_engine : Engine :=
  fun _ _ _ w => ({| settled := inl (Coded "ERR_QUERY"); elapsed := 1 |}, w).

Definition broken : Dht PS RT := node alice reply_find no_record broken_engine.

Definition find_key : Message := new_Message FIND_NODE [3; 3] 0.

(** Bob stored with a public key that is not the one his id comes from. *)
Definition bob_with_key : StoredPeer :=
  {| stored_id := {| id := [2; 2]; privKey := None; pubKey := Some [9; 9] |};
     addresses := [] |}.

Definition w_bob_keyed : World PS RT := world [bob_with_key] [].

Definition stored_carol : StoredPeer :=
  {| stored_id := carol; addresses := [{| multiaddr := [4; 10; 0; 0; 3] |}] |}.

End Toy.

(** * Properties *)

Lemma bytes_eqb_refl (a : bytes) : bytes_eqb a a = true.
Proof.
  induction a as [|x a IH]; simpl; [reflexivity|].
  now rewrite Z.eqb_refl, IH.
Qed.

Lemma bytes_eqb_eq (a b : bytes) : bytes_eqb a b = true <-> a = b.
Proof.
  split.
  - revert b; induction a as [|x a IH]; intros [|y b]; simpl; try discriminate; auto.
    intros H. apply andb_true_iff in H as [Hx Hr].
    apply Z.eqb_eq in Hx. f_equal; auto.
  - intros ->. apply bytes_eqb_refl.
Qed.

(** C8: public-key keys round-trip.  [keyForPublicKey peer] is the bytes of
    "/pk/" followed by the id of the peer, [isPublicKeyKey] accepts it, and
    [fromPublicKeyKey] gives back a peer id with the same id bytes. *)
Theorem keyForPublicKey_roundtrip (peer : PeerId) :
  utils.keyForPublicKey peer = [47; 112; 107; 47] ++ id peer /\
  utils.keyForPublicKey peer = Buffer_from "/pk/" ++ id peer /\
  utils.isPublicKeyKey (utils.keyForPublicKey peer) = true /\
  id (utils.fromPublicKeyKey (utils.keyForPublicKey peer)) = id peer.
Proof.
  unfold utils.keyForPublicKey, Buffer_concat; simpl List.concat.
  rewrite app_nil_r.
  repeat split; reflexivity.
Qed.

Lemma keyForPublicKey_roundtrip_parts (peer : PeerId) :
  utils.isPublicKeyKey (utils.keyForPublicKey peer) = true /\
  id (utils.fromPublicKeyKey (utils.keyForPublicKey peer)) = id peer.
Proof.
  unfold utils.keyForPublicKey, Buffer_concat; simpl List.concat.
  rewrite app_nil_r. split; reflexivity.
Qed.

Lemma Qceiling_div (a b : Z) : 0 < b ->
  Qceiling (inject_Z a / inject_Z b) = - ((- a) / b).
Proof.
  intros Hb. destruct b as [|p|p]; try lia.
  unfold Qceiling, Qfloor, Qdiv, Qmult, Qinv, Qopp, inject_Z; simpl.
  rewrite !Z.mul_1_r. reflexivity.
Qed.



(** ** Base 32 *)

Lemma string_app_assoc (a b c : string) :
  ((a ++ b) ++ c = a ++ (b ++ c))%string.
Proof. induction a as [|x a IH]; simpl; [reflexivity|]. now rewrite IH. Qed.

Lemma string_app_nil_r (a : string) : (a ++ "" = a)%string.
Proof. induction a as [|x a IH]; simpl; [reflexivity|]. now rewrite IH. Qed.

Lemma letters_app (A : string) (l1 l2 : list Z) :
  RFC4648.letters A (l1 ++ l2) =
  (RFC4648.letters A l1 ++ RFC4648.letters A l2)%string.
Proof.
  unfold RFC4648.letters.
  induction l1 as [|x l1 IH]; [reflexivity|].
  rewrite <- app_comm_cons. cbn [fold_right].
  rewrite IH. symmetry. apply string_app_assoc.
Qed.

Lemma quintets_app_5 (g r : list bool) :
  List.length g = 5%nat ->
  RFC4648.quintets (g ++ r) = RFC4648.quintets g ++ RFC4648.quintets r.
Proof.
  destruct g as [|a [|b [|c [|d [|e [|f g]]]]]]; simpl; try discriminate.
  reflexivity.
Qed.

Lemma quintets_app_10 (g r : list bool) :
  List.length g = 10%nat ->
  RFC4648.quintets (g ++ r) = RFC4648.quintets g ++ RFC4648.quintets r.
Proof.
  intros H.
  rewrite <- (firstn_skipn 5 g), <- app_assoc.
  assert (H1 : List.length (firstn 5 g) = 5%nat) by (rewrite length_firstn; lia).
  assert (H2 : List.length (skipn 5 g) = 5%nat) by (rewrite length_skipn; lia).
  rewrite !(quintets_app_5 (firstn 5 g)) by exact H1.
  rewrite quintets_app_5 by exact H2.
  now rewrite app_assoc.
Qed.

Lemma bits_eqb_eq (a b : list bool) :
  Base32State.bits_eqb a b = true -> a = b.
Proof.
  revert b; induction a as [|x a IH]; intros [|y b]; simpl; try discriminate; auto.
  intros H. apply andb_true_iff in H as [Hx Hr].
  apply eqb_prop in Hx. f_equal; auto.
Qed.

Lemma upto_In (n : nat) (z : Z) :
  0 <= z < Z.of_nat n -> In z (Base32State.upto n).
Proof.
  intros H. unfold Base32State.upto.
  apply in_map_iff. exists (Z.to_nat z). split; [lia|].
  apply in_seq. lia.
Qed.

Lemma all_checks_hold :
  Base32State.all_pairs Base32State.final_check Base32State.step_check
    [3; 4; 5; 6; 7; 8] 32 256 = true.
Proof. vm_compute. reflexivity. Qed.

Lemma land31_range (c : Z) : 0 <= Z.land c 31 < 32.
Proof.
  split.
  - apply Z.land_nonneg. right. lia.
  - change 31 with (Z.ones 5). rewrite Z.land_ones by lia.
    apply Z.mod_pos_bound. lia.
Qed.

Lemma state_ok_shift (sh c : Z) :
  Base32State.state_ok sh c = true ->
  In sh [3; 4; 5; 6; 7; 8].
Proof.
  unfold Base32State.state_ok. intros H.
  apply andb_true_iff in H as [H _]. apply andb_true_iff in H as [H1 H2].
  apply Z.leb_le in H1, H2. simpl.
  assert (sh = 3 \/ sh = 4 \/ sh = 5 \/ sh = 6 \/ sh = 7 \/ sh = 8) by lia.
  intuition.
Qed.

Lemma state_ok_land (sh c : Z) :
  Base32State.state_ok sh (Z.land c 31) = Base32State.state_ok sh c.
Proof.
  unfold Base32State.state_ok.
  now rewrite <- Z.land_assoc, Z.land_diag.
Qed.

Lemma lor_land31 (c x : Z) :
  Z.land (Z.lor c x) 31 = Z.land (Z.lor (Z.land c 31) x) 31.
Proof.
  rewrite !Z.land_lor_distr_l. now rewrite <- Z.land_assoc, Z.land_diag.
Qed.

(** A turn of the loop reads [carry] through its low five bits only and
    appends to [buf]. *)
Lemma write_byte_enc (e : base32.Encoder) (b : Z) :
  base32.alphabet e = base32.rfc4648_alphabet ->
  let e0 := base32.write_byte
              (Base32State.enc (base32.shift e) (Z.land (base32.carry e) 31)) b in
  base32.write_byte e b =
  {| base32.buf := (base32.buf e ++ base32.buf e0)%string;
     base32.shift := base32.shift e0;
     base32.carry := base32.carry e0;
     base32.alphabet := base32.rfc4648_alphabet |}.
Proof.
  intros HA. unfold base32.write_byte, Base32State.enc.
  cbn [base32.buf base32.shift base32.carry base32.alphabet].
  rewrite HA, <- lor_land31.
  destruct (5 <? base32.shift e);
    cbn [base32.buf base32.shift base32.carry base32.alphabet];
    now rewrite ?string_app_assoc.
Qed.

Lemma forallb_nested (F : Z -> Z -> bool) (G : Z -> Z -> Z -> bool)
      (l : list Z) (n m : nat) :
  Base32State.all_pairs F G l n m = true ->
  forall sh c, In sh l -> 0 <= c < Z.of_nat n ->
    F sh c = true /\ forall b, 0 <= b < Z.of_nat m -> G sh c b = true.
Proof.
  unfold Base32State.all_pairs. intros H sh c Hsh Hc.
  rewrite forallb_forall in H. specialize (H sh Hsh).
  rewrite forallb_forall in H. specialize (H c (upto_In n c Hc)).
  apply andb_true_iff in H as [Hf Hs]. split; [exact Hf|].
  intros b Hb. rewrite forallb_forall in Hs. apply Hs.
  now apply upto_In.
Qed.

Lemma checks_at (sh c : Z) :
  Base32State.state_ok sh c = true ->
  Base32State.final_check sh (Z.land c 31) = true /\
  forall b, is_byte b -> Base32State.step_check sh (Z.land c 31) b = true.
Proof.
  intros Hok.
  destruct (forallb_nested Base32State.final_check Base32State.step_check
              [3; 4; 5; 6; 7; 8] 32 256 all_checks_hold sh (Z.land c 31)
              (state_ok_shift _ _ Hok)) as [Hf Hs].
  - pose proof (land31_range c). lia.
  - split; [exact Hf|]. intros b Hb. apply Hs. unfold is_byte in Hb. lia.
Qed.

(** One byte: the encoder writes the complete groups of the pending bits
    followed by the byte's bits, and keeps the rest pending. *)
Lemma write_byte_step (e : base32.Encoder) (b : Z) :
  is_byte b ->
  base32.alphabet e = base32.rfc4648_alphabet ->
  Base32State.state_ok (base32.shift e) (base32.carry e) = true ->
  let e' := base32.write_byte e b in
  exists g,
    (List.length g = 5%nat \/ List.length g = 10%nat) /\
    Base32State.pending_of e ++ RFC4648.bits_of_byte b
      = g ++ Base32State.pending_of e' /\
    base32.buf e' =
      (base32.buf e ++
       RFC4648.letters base32.rfc4648_alphabet (RFC4648.quintets g))%string /\
    base32.alphabet e' = base32.rfc4648_alphabet /\
    Base32State.state_ok (base32.shift e') (base32.carry e') = true.
Proof.
  intros Hb HA Hok e'. subst e'.
  destruct (checks_at _ _ Hok) as [_ Hstep].
  specialize (Hstep b Hb). unfold Base32State.step_check in Hstep.
  rewrite state_ok_land, Hok in Hstep. cbn [implb] in Hstep.
  rewrite (write_byte_enc e b HA). cbv zeta.
  set (e0 := base32.write_byte _ b) in *.
  set (bits := (Base32State.pending _ _ ++ RFC4648.bits_of_byte b)%list) in *.
  apply andb_true_iff in Hstep as [Hstep Hrest].
  apply andb_true_iff in Hstep as [Hstep Hlen].
  apply andb_true_iff in Hstep as [Hok' Hbuf].
  apply String.eqb_eq in Hbuf. apply Nat.eqb_eq in Hlen.
  apply bits_eqb_eq in Hrest.
  exists (firstn (Base32State.flushed (base32.shift e)) bits).
  cbn [base32.buf base32.shift base32.carry base32.alphabet].
  unfold Base32State.pending_of.
  cbn [base32.buf base32.shift base32.carry base32.alphabet].
  repeat split.
  - rewrite Hlen. unfold Base32State.flushed.
    destruct (5 <? base32.shift e); auto.
  - rewrite <- Hrest. fold bits. now rewrite firstn_skipn.
  - now rewrite Hbuf.
  - exact Hok'.
Qed.

Lemma finalize_pending (e : base32.Encoder) :
  base32.alphabet e = base32.rfc4648_alphabet ->
  Base32State.state_ok (base32.shift e) (base32.carry e) = true ->
  base32.finalize e =
  (base32.buf e ++
   RFC4648.letters base32.rfc4648_alphabet
     (RFC4648.quintets (Base32State.pending_of e)))%string.
Proof.
  intros HA Hok.
  destruct (checks_at _ _ Hok) as [Hfin _].
  unfold Base32State.final_check in Hfin.
  rewrite state_ok_land, Hok in Hfin. cbn [implb] in Hfin.
  apply String.eqb_eq in Hfin.
  unfold Base32State.pending_of. rewrite <- Hfin.
  unfold base32.finalize, Base32State.enc.
  cbn [base32.buf base32.shift base32.carry base32.alphabet].
  rewrite HA, <- Z.land_assoc, Z.land_diag.
  destruct (base32.shift e =? 3); [now rewrite string_app_nil_r | reflexivity].
Qed.

(** The streaming encoder against the standard, from any reachable state. *)
Lemma write_finalize (data : bytes) :
  is_buffer data ->
  forall e,
    base32.alphabet e = base32.rfc4648_alphabet ->
    Base32State.state_ok (base32.shift e) (base32.carry e) = true ->
    base32.finalize (base32.write e data) =
    (base32.buf e ++
     RFC4648.letters base32.rfc4648_alphabet
       (RFC4648.quintets (Base32State.pending_of e ++ RFC4648.bits_of data)))%string.
Proof.
  induction 1 as [|b data Hb Hdata IH]; intros e HA Hok.
  - cbn [base32.write fold_left RFC4648.bits_of flat_map].
    rewrite app_nil_r. now apply finalize_pending.
  - change (base32.write e (b :: data))
      with (base32.write (base32.write_byte e b) data).
    destruct (write_byte_step e b Hb HA Hok) as (g & Hg & Hbits & Hbuf & HA' & Hok').
    rewrite (IH _ HA' Hok'), Hbuf, string_app_assoc. f_equal.
    rewrite <- letters_app. f_equal.
    change (RFC4648.bits_of (b :: data))
      with (RFC4648.bits_of_byte b ++ RFC4648.bits_of data).
    rewrite app_assoc, Hbits, <- app_assoc.
    destruct Hg as [Hg|Hg];
      [rewrite (quintets_app_5 g) by exact Hg
      |rewrite (quintets_app_10 g) by exact Hg]; reflexivity.
Qed.

Lemma encodeBase32_rfc4648 (data : bytes) :
  is_buffer data ->
  utils.encodeBase32 data = RFC4648.encode_nopad RFC4648.upper data.
Proof.
  intros H. unfold utils.encodeBase32.
  rewrite (write_finalize data H base32.new_Encoder eq_refl eq_refl).
  reflexivity.
Qed.

(** ** Distances as numbers *)

Lemma be_value_from (l : bytes) (acc : Z) :
  fold_left (fun a b => a * 256 + b) l acc =
  acc * 256 ^ Z.of_nat (List.length l) + be_value l.
Proof.
  unfold be_value. revert acc.
  induction l as [|x l IH]; intros acc.
  - simpl. lia.
  - cbn [fold_left List.length]. rewrite IH, (IH (0 * 256 + x)).
    rewrite Nat2Z.inj_succ, Z.pow_succ_r by lia. ring.
Qed.

Lemma be_value_cons (x : Z) (l : bytes) :
  be_value (x :: l) = x * 256 ^ Z.of_nat (List.length l) + be_value l.
Proof.
  unfold be_value at 1. cbn [fold_left]. rewrite be_value_from. ring.
Qed.

Lemma be_value_bound (l : bytes) :
  is_buffer l -> 0 <= be_value l < 256 ^ Z.of_nat (List.length l).
Proof.
  induction 1 as [|x l Hx Hl IH].
  - cbn. lia.
  - rewrite be_value_cons. cbn [List.length].
    rewrite Nat2Z.inj_succ, Z.pow_succ_r by lia.
    unfold is_byte in Hx. nia.
Qed.

(** [compare] orders equally long buffers as the numbers they spell. *)
Lemma compare_from_be (a : bytes) :
  is_buffer a -> forall b, is_buffer b -> List.length a = List.length b ->
  (distance.compare_from a b <= 0 <-> be_value a <= be_value b).
Proof.
  induction 1 as [|x a Hx Ha IH]; intros b Hb Hlen.
  - destruct b; [|discriminate]. cbn. lia.
  - destruct b as [|y b]; [discriminate|].
    inversion Hb as [|? ? Hy Hb']; subst.
    injection Hlen as Hlen.
    cbn [distance.compare_from]. rewrite !be_value_cons, <- Hlen.
    pose proof (be_value_bound a Ha) as Ba.
    pose proof (be_value_bound b Hb') as Bb. rewrite <- Hlen in Bb.
    set (W := 256 ^ Z.of_nat (List.length a)) in *.
    destruct (Z.eqb_spec x y) as [->|Hne].
    + rewrite (IH b Hb' Hlen). lia.
    + destruct (Z.ltb_spec x y); split; intros; try lia; nia.
Qed.

Lemma testbit_split (x u k n : Z) :
  0 <= k -> 0 <= u < 2 ^ k -> 0 <= n ->
  Z.testbit (x * 2 ^ k + u) n =
  if n <? k then Z.testbit u n else Z.testbit x (n - k).
Proof.
  intros Hk Hu Hn.
  destruct (Z.ltb_spec n k).
  - rewrite <- (Z.mod_pow2_bits_low (x * 2 ^ k + u) k n) by lia.
    rewrite Z.add_comm, Z.mod_add by lia.
    now rewrite Z.mod_small by lia.
  - replace n with ((n - k) + k) at 1 by lia.
    rewrite <- Z.div_pow2_bits by lia.
    rewrite Z.div_add_l by lia.
    rewrite (Z.div_small u) by lia. now rewrite Z.add_0_r.
Qed.

Lemma lxor_split (x y u v k : Z) :
  0 <= k -> 0 <= u < 2 ^ k -> 0 <= v < 2 ^ k -> 0 <= Z.lxor u v < 2 ^ k ->
  Z.lxor (x * 2 ^ k + u) (y * 2 ^ k + v) = Z.lxor x y * 2 ^ k + Z.lxor u v.
Proof.
  intros Hk Hu Hv Huv. apply Z.bits_inj'. intros n Hn.
  rewrite Z.lxor_spec, !testbit_split by lia.
  destruct (n <? k); now rewrite Z.lxor_spec.
Qed.

Lemma lxor_byte (x y : Z) : is_byte x -> is_byte y -> is_byte (Z.lxor x y).
Proof.
  unfold is_byte. intros Hx Hy. split.
  - apply Z.lxor_nonneg. lia.
  - destruct (Z.eq_dec (Z.lxor x y) 0) as [->|Hnz]; [lia|].
    assert (Hpos : 0 < Z.lxor x y)
      by (pose proof (proj2 (Z.lxor_nonneg x y) ltac:(lia)); lia).
    change 256 with (2 ^ 8). apply Z.log2_lt_pow2; [exact Hpos|].
    apply Z.le_lt_trans with (Z.max (Z.log2 x) (Z.log2 y)).
    + apply Z.log2_lxor; lia.
    + assert (Hl : forall z, 0 <= z < 256 -> Z.log2 z < 8).
      { intros z Hz. destruct (Z.eq_dec z 0) as [->|]; [cbn; lia|].
        apply Z.log2_lt_pow2; [lia|]. change (2 ^ 8) with 256. lia. }
      pose proof (Hl x Hx). pose proof (Hl y Hy). lia.
Qed.

Lemma xor_bytes_buffer (a : bytes) :
  is_buffer a -> forall b, is_buffer b -> List.length a = List.length b ->
  is_buffer (distance.xor_bytes a b) /\
  List.length (distance.xor_bytes a b) = List.length a /\
  be_value (distance.xor_bytes a b) = Z.lxor (be_value a) (be_value b).
Proof.
  induction 1 as [|x a Hx Ha IH]; intros b Hb Hlen.
  - destruct b; [|discriminate]. cbn. repeat split. constructor.
  - destruct b as [|y b]; [discriminate|].
    inversion Hb as [|? ? Hy Hb']; subst.
    injection Hlen as Hlen.
    destruct (IH b Hb' Hlen) as (Hbuf & Hl & Hv).
    cbn [distance.xor_bytes List.length]. repeat split.
    + constructor; [now apply lxor_byte | exact Hbuf].
    + now rewrite Hl.
    + rewrite !be_value_cons, Hl, Hv, <- Hlen.
      pose proof (be_value_bound a Ha) as Ba.
      pose proof (be_value_bound b Hb') as Bb. rewrite <- Hlen in Bb.
      pose proof (be_value_bound _ Hbuf) as Bx. rewrite Hl, Hv in Bx.
      replace (256 ^ Z.of_nat (List.length a))
        with (2 ^ (8 * Z.of_nat (List.length a))) in *
        by (rewrite Z.pow_mul_r by lia; reflexivity).
      symmetry. apply lxor_split; lia.
Qed.

(** ** Sorting with a comparator that does not throw *)

Section SortFacts.
Context {A : Type} (cmp : A -> A -> result Z) (P : A -> Prop) (f : A -> Z).
Hypothesis cmp_total : forall x y, P x -> P y ->
  exists c, cmp x y = inr c /\ (c <= 0 <-> f x <= f y).

Lemma insert_sorted_ok (x : A) (l : list A) :
  P x -> Forall P l -> StronglySorted (fun a b => f a <= f b) l ->
  exists s, insert_sorted cmp x l = inr s /\
            Permutation (x :: l) s /\
            StronglySorted (fun a b => f a <= f b) s.
Proof.
  intros Hx Hl. induction 1 as [|y l Hs IH Hy].
  - exists [x]. cbn. repeat split; auto. repeat constructor.
  - inversion Hl as [|? ? Py Pl]; subst.
    destruct (cmp_total x y Hx Py) as (c & Hc & Hle).
    cbn [insert_sorted]. rewrite Hc. cbn [bindR].
    destruct (Z.leb_spec c 0) as [Hc0|Hc0].
    + exists (x :: y :: l). repeat split; auto.
      constructor; [constructor; assumption|].
      constructor; [lia|].
      rewrite Forall_forall in *. intros z Hz. specialize (Hy z Hz). lia.
    + destruct (IH Pl) as (s & Hs' & Hperm & Hsorted).
      rewrite Hs'. cbn [bindR]. exists (y :: s). repeat split.
      * rewrite perm_swap. now constructor.
      * constructor; [exact Hsorted|].
        rewrite Forall_forall. intros z Hz.
        apply (Permutation_in _ (Permutation_sym Hperm)) in Hz.
        destruct Hz as [<-|Hz]; [lia|].
        rewrite Forall_forall in Hy. now apply Hy.
Qed.

Lemma Array_sort_ok (l : list A) :
  Forall P l ->
  exists s, Array_sort cmp l = inr s /\
            Permutation l s /\
            StronglySorted (fun a b => f a <= f b) s.
Proof.
  induction 1 as [|x l Hx Hl IH].
  - exists []. cbn. repeat split; auto. constructor.
  - destruct IH as (s & Hs & Hperm & Hsorted).
    cbn [Array_sort]. rewrite Hs. cbn [bindR].
    assert (Ps : Forall P s).
    { rewrite Forall_forall in *. intros z Hz. apply Hl.
      now apply (Permutation_in _ (Permutation_sym Hperm)). }
    destruct (insert_sorted_ok x s Hx Ps Hsorted) as (s' & Hs' & Hperm' & Hsorted').
    exists s'. repeat split; auto.
    now rewrite <- Hperm', Hperm.
Qed.
End SortFacts.

Section SortClosest.
Variable sha : bytes -> bytes.
Hypothesis sha_digest : digest_32 sha.

Lemma distances_total (peers : list PeerId) (k : bytes) :
  mapR (fun peer =>
          bindR (distance.dist (utils.convertPeerId sha peer) (sha k))
                (fun d => inr (peer, d))) peers =
  inr (map (fun peer => (peer, distance.xor_bytes (sha (id peer)) (sha k))) peers).
Proof.
  induction peers as [|p peers IH]; [reflexivity|].
  cbn [mapR map]. unfold utils.convertPeerId, distance.dist at 1.
  destruct (sha_digest (id p)) as [_ L1]. destruct (sha_digest k) as [_ L2].
  rewrite L1, L2, Nat.eqb_refl. cbn [bindR].
  unfold utils.convertPeerId in IH. rewrite IH. reflexivity.
Qed.

(** [sortClosestPeers] does not throw on digests, and returns its input
    rearranged in non-decreasing distance to the target. *)
Lemma sortClosestPeers_sorted (peers : list PeerId) (k : bytes) :
  exists sorted,
    utils.sortClosestPeers sha peers (sha k) = inr sorted /\
    Permutation peers sorted /\
    StronglySorted
      (fun p q => kad_distance sha (id p) k <= kad_distance sha (id q) k)
      sorted.
Proof.
  unfold utils.sortClosestPeers. rewrite distances_total. cbn [bindR].
  set (P := fun pd : PeerId * bytes =>
              snd pd = distance.xor_bytes (sha (id (fst pd))) (sha k)).
  set (f := fun pd : PeerId * bytes => kad_distance sha (id (fst pd)) k).
  assert (Hxor : forall p,
            is_buffer (distance.xor_bytes (sha (id p)) (sha k)) /\
            List.length (distance.xor_bytes (sha (id p)) (sha k)) = 32%nat /\
            be_value (distance.xor_bytes (sha (id p)) (sha k)) =
              kad_distance sha (id p) k).
  { intros p. destruct (sha_digest (id p)) as [B1 L1].
    destruct (sha_digest k) as [B2 L2].
    destruct (xor_bytes_buffer _ B1 _ B2 ltac:(congruence)) as (Hb & Hl & Hv).
    repeat split; [exact Hb | congruence | exact Hv]. }
  assert (Hcmp : forall x y, P x -> P y ->
            exists c, utils.xorCompare x y = inr c /\ (c <= 0 <-> f x <= f y)).
  { intros [p dp] [q dq] Hp Hq. unfold P in Hp, Hq. cbn [fst snd] in Hp, Hq.
    subst dp dq. unfold utils.xorCompare, distance.compare, f. cbn [fst snd].
    destruct (Hxor p) as (Bp & Lp & Vp). destruct (Hxor q) as (Bq & Lq & Vq).
    rewrite Lp, Lq, Nat.eqb_refl. eexists. split; [reflexivity|].
    rewrite <- Vp, <- Vq. apply compare_from_be; congruence. }
  destruct (Array_sort_ok utils.xorCompare P f Hcmp
              (map (fun peer =>
                      (peer, distance.xor_bytes (sha (id peer)) (sha k))) peers))
    as (s & Hs & Hperm & Hsorted).
  { rewrite Forall_forall. intros pd Hin. apply in_map_iff in Hin.
    destruct Hin as (p & <- & _). reflexivity. }
  rewrite Hs. cbn [bindR]. exists (map fst s). repeat split.
  - apply (Permutation_map fst) in Hperm.
    rewrite map_map in Hperm. cbn [fst] in Hperm.
    now rewrite map_id in Hperm.
  - clear - Hsorted. induction Hsorted as [|pd s Hs IH Hall]; cbn [map].
    + constructor.
    + constructor; [exact IH|].
      rewrite Forall_forall in *. intros q Hq. apply in_map_iff in Hq.
      destruct Hq as (qd & <- & Hin). exact (Hall qd Hin).
Qed.
End SortClosest.

(** ** Peer routing *)

Lemma toy_sha_digest : digest_32 Toy.sha.
Proof.
  intros b. unfold Toy.sha. split.
  - apply Forall_forall. intros x Hx. apply in_map_iff in Hx.
    destruct Hx as (y & <- & _). unfold is_byte.
    apply Z.mod_pos_bound. lia.
  - rewrite length_map, length_firstn, length_app, repeat_length. lia.
Qed.

Section PeerRoutingFacts.
Context {PS RT : Type} (dht : Dht PS RT).

Lemma findPeerLocal_pure (target : PeerId) (w : World PS RT) :
  snd (PeerRouting.findPeerLocal dht target w) = w.
Proof.
  unfold PeerRouting.findPeerLocal, bind, get_world.
  destruct (routingTable_find dht (routingTable w) target) as [p|];
    [destruct (peerStore_get dht (peerStore w) p)|]; reflexivity.
Qed.


Lemma findPeer_after_miss (target : PeerId) (options : FindPeerOptions)
      (w : World PS RT) :
  fst (PeerRouting.findPeerLocal dht target w) = inr None ->
  PeerRouting.findPeer dht target options w =
  PeerRouting.findPeer_network dht target
    (PeerRouting.timeout_or_default options) w.
Proof.
  intros H. unfold PeerRouting.findPeer. unfold bind at 1.
  pose proof (findPeerLocal_pure target w) as Hw.
  destruct (PeerRouting.findPeerLocal dht target w) as [r w'].
  cbn in H, Hw. subst. reflexivity.
Qed.


(** C5: when the target is not found locally and the routing table has no
    peer close to its key, [findPeer] fails with ERR_LOOKUP_FAILED; the
    world is the one it started in: nothing was sent, no store changed. *)
Theorem findPeer_lookup_failed (target : PeerId) (options : FindPeerOptions)
        (w : World PS RT) :
  fst (PeerRouting.findPeerLocal dht target w) = inr None ->
  routingTable_closestPeers dht (routingTable w)
    (utils.convertPeerId (sha2_256 dht) target) (kBucketSize dht) = [] ->
  PeerRouting.findPeer dht target options w =
  (inl (Coded "ERR_LOOKUP_FAILED"), w).
Proof.
  intros Hlocal Hseeds. rewrite findPeer_after_miss by exact Hlocal.
  unfold PeerRouting.findPeer_network, bind, get_world.
  rewrite Hseeds. reflexivity.
Qed.

Lemma find_first {A} (f : A -> bool) (l : list A) :
  (exists x, In x l /\ f x = true) ->
  exists y, find f l = Some y /\ In y l /\ f y = true.
Proof.
  intros (x & Hin & Hx).
  destruct (find f l) as [y|] eqn:Hfind.
  - exists y. split; [reflexivity|]. now apply find_some in Hfind.
  - pose proof (find_none f l Hfind x Hin). congruence.
Qed.

Lemma find_nothing {A} (f : A -> bool) (l : list A) :
  (forall x, In x l -> f x = false) -> find f l = None.
Proof.
  induction l as [|y l IH]; intros H; [reflexivity|].
  cbn. rewrite (H y (or_introl eq_refl)). apply IH.
  intros x Hx. apply H. now right.
Qed.

Lemma isEqual_id (a b : PeerId) : isEqual a b = true <-> id a = id b.
Proof. unfold isEqual. apply bytes_eqb_eq. Qed.

(** C2: the query function of [findPeer] sends one FIND_NODE request for the
    target's id to the peer it is given.  If a peer of the reply's
    [closerPeers] has the target's id, the step is that peer with
    [queryComplete] set; if none has, the step is the reply's [closerPeers]
    and no [queryComplete]. *)
Theorem findPeer_queryFn_step (target peer : PeerId) (w : World PS RT) :
  let request := new_Message FIND_NODE (id target) 0 in
  let sent := with_event w (EvSendRequest peer request) in
  forall reply w',
    network_exchange dht peer request sent = (inr reply, w') ->
    ((exists p, In p (closerPeers reply) /\ id (peer_id p) = id target) ->
     exists found,
       In found (closerPeers reply) /\ id (peer_id found) = id target /\
       PeerRouting.findPeer_queryFn dht target peer w =
       (inr {| step_peer := Some found; step_closerPeers := None;
               queryComplete := Some true; pathComplete := None |}, w')) /\
    ((forall p, In p (closerPeers reply) -> id (peer_id p) <> id target) ->
     PeerRouting.findPeer_queryFn dht target peer w =
     (inr {| step_peer := None;
             step_closerPeers := Some (closerPeers reply);
             queryComplete := None; pathComplete := None |}, w')).
Proof.
  intros request sent reply w' Hreply.
  unfold PeerRouting.findPeer_queryFn, PeerRouting._findPeerSingle,
    PeerRouting.network_sendRequest, bind, emit.
  fold request. fold sent. rewrite Hreply. split.
  - intros (p & Hin & Hid).
    destruct (find_first (fun p => isEqual (peer_id p) target)
                (closerPeers reply)) as (found & Hfind & Hfin & Hfeq).
    { exists p. split; [exact Hin|]. now apply isEqual_id. }
    exists found. rewrite Hfind. repeat split; auto. now apply isEqual_id.
  - intros Hnone. rewrite find_nothing; [reflexivity|].
    intros p Hin. destruct (isEqual (peer_id p) target) eqn:E; [|reflexivity].
    apply isEqual_id in E. now apply Hnone in Hin.
Qed.

Lemma forEach_path_none (l : list PathResult) (b : bool) (w : World PS RT) :
  (forall r, In r l -> success r = false) ->
  PeerRouting.forEach_path dht l b w = (inr b, w).
Proof.
  induction l as [|r l IH]; intros H; [reflexivity|].
  cbn [PeerRouting.forEach_path].
  rewrite (H r (or_introl eq_refl)). apply IH.
  intros r' Hr'. apply H. now right.
Qed.

Lemma forEach_path_success (l : list PathResult) :
  forall (b : bool) (w : World PS RT) s w',
    PeerRouting.forEach_path dht l b w = (inr s, w') ->
    s = true -> b = true \/ exists r, In r l /\ success r = true.
Proof.
  induction l as [|r l IH]; intros b w s w' H Hs.
  - cbn in H. injection H as <- _. now left.
  - cbn [PeerRouting.forEach_path] in H.
    destruct (success r) eqn:Hr.
    + right. exists r. split; [now left | exact Hr].
    + destruct (IH _ _ _ _ H Hs) as [Hb|(r' & Hin & Hr')]; [now left|].
      right. exists r'. split; [now right | exact Hr'].
Qed.

Lemma findPeer_reaches (target : PeerId) (options : FindPeerOptions)
      (w : World PS RT) :
  PeerRouting.reaches_query dht target w ->
  PeerRouting.findPeer dht target options w =
  PeerRouting.findPeer_query dht target
    (PeerRouting.timeout_or_default options)
    (PeerRouting.findPeer_seeds dht target w) w.
Proof.
  intros (Hlocal & Hseeds & Hcheck).
  rewrite findPeer_after_miss by exact Hlocal.
  unfold PeerRouting.findPeer_network, bind, get_world.
  fold (PeerRouting.findPeer_seeds dht target w).
  destruct (PeerRouting.findPeer_seeds dht target w) as [|p seeds] eqn:Es;
    [congruence|].
  cbn [List.length Nat.eqb].
  destruct Hcheck as [Hc|Hc]; rewrite Hc; [reflexivity|].
  now destruct (find _ _).
Qed.

(** C3, as the code has it: once [findPeer] runs the query, a timeout that
    fires makes it fail with the [TimeoutError] of p-timeout, and an error of
    the run is passed on, both after the query is stopped; a run that
    completes without a successful path fails with ERR_NOT_FOUND; and a peer
    record is returned only when the run completed in time with a successful
    path. *)
Theorem findPeer_query_outcome (target : PeerId) (options : FindPeerOptions)
        (w : World PS RT) :
  PeerRouting.reaches_query dht target w ->
  let t := PeerRouting.timeout_or_default options in
  let seeds := PeerRouting.findPeer_seeds dht target w in
  forall run w1,
    query_engine dht (id target) (PeerRouting.findPeer_queryFn dht target)
      seeds (with_event w (EvQueryRun (id target) seeds)) = (run, w1) ->
    let stopped := with_event w1 EvQueryStop in
    (0 <= t <= elapsed run ->
     PeerRouting.findPeer dht target options w = (inl TimeoutError, stopped)) /\
    (0 <= t -> elapsed run < t -> forall e, settled run = inl e ->
     PeerRouting.findPeer dht target options w = (inl e, stopped)) /\
    (0 <= t -> elapsed run < t -> forall res,
       settled run = inr (Some res) ->
       (forall r, In r (paths res) -> success r = false) ->
     PeerRouting.findPeer dht target options w =
     (inl (Coded "ERR_NOT_FOUND"), stopped)) /\
    (forall found w',
       PeerRouting.findPeer dht target options w = (inr found, w') ->
       elapsed run < t /\
       exists res, settled run = inr (Some res) /\
                   exists r, In r (paths res) /\ success r = true).
Proof.
  intros Hreach t seeds run w1 Hrun stopped.
  rewrite (findPeer_reaches target options w Hreach).
  fold t. fold seeds.
  remember (PeerRouting.findPeer_query dht target t seeds w) as q eqn:Hq.
  unfold PeerRouting.findPeer_query, PeerRouting.query_run,
    PeerRouting.query_stop in Hq.
  unfold bind at 1 in Hq. unfold bind at 1 in Hq. unfold emit at 1 in Hq.
  rewrite Hrun in Hq. unfold bind at 1 in Hq. unfold emit at 1 in Hq.
  fold stopped in Hq. subst q.
  unfold pTimeout.
  split; [|split; [|split]].
  - intros [H0 Ht].
    destruct (Z.ltb_spec t 0); [lia|].
    destruct (Z.leb_spec t (elapsed run)); [reflexivity | lia].
  - intros H0 Ht e He.
    destruct (Z.ltb_spec t 0); [lia|].
    destruct (Z.leb_spec t (elapsed run)); [lia|].
    rewrite He. reflexivity.
  - intros H0 Ht res Hres Hnone.
    destruct (Z.ltb_spec t 0); [lia|].
    destruct (Z.leb_spec t (elapsed run)); [lia|].
    rewrite Hres. unfold bind.
    rewrite (forEach_path_none _ _ _ Hnone). reflexivity.
  - intros found w' H.
    destruct (Z.ltb_spec t 0); [discriminate|].
    destruct (Z.leb_spec t (elapsed run)); [discriminate|].
    split; [lia|].
    destruct (settled run) as [e|[res|]]; try discriminate.
    exists res. split; [reflexivity|].
    unfold bind in H.
    destruct (PeerRouting.forEach_path dht (paths res) false stopped)
      as [[e|s] w2] eqn:Hloop; [discriminate|].
    destruct s; [|discriminate].
    destruct (forEach_path_success _ _ _ _ _ Hloop eq_refl) as [Hf|Hex];
      [discriminate | exact Hex].
Qed.

Lemma getClosestPeers_queryFn_open (k : bytes) (options : ClosestPeersOptions)
      (peer : PeerId) (w : World PS RT) step w' :
  PeerRouting.getClosestPeers_queryFn dht k options peer w = (inr step, w') ->
  queryComplete step = None /\ step_peer step = None.
Proof.
  unfold PeerRouting.getClosestPeers_queryFn, bind, ret.
  destruct (PeerRouting.closerPeersSingle dht k peer w) as [[e|closer] w1];
    [discriminate|].
  intros H. injection H as <- _. split; reflexivity.
Qed.

(** C4: [getClosestPeers] runs the query from the routing table's closest
    peers to SHA-256(key); when the query completes with a [finalSet], it
    yields the members of that set in non-decreasing XOR distance of
    SHA-256(peer id) to SHA-256(key), cut to at most [kBucketSize] peers; and
    no step of its query function sets [queryComplete]. *)
Theorem getClosestPeers_sorted (k : bytes) (options : ClosestPeersOptions)
        (w : World PS RT) :
  digest_32 (sha2_256 dht) ->
  let seeds :=
    routingTable_closestPeers dht (routingTable w) (sha2_256 dht k)
      (kBucketSize dht) in
  forall run w1,
    query_engine dht k (PeerRouting.getClosestPeers_queryFn dht k options)
      seeds (with_event w (EvQueryRun k seeds)) = (run, w1) ->
    (forall res members,
       settled run = inr (Some res) -> finalSet res = Some members ->
       members <> [] ->
       exists sorted,
         Permutation members sorted /\
         StronglySorted
           (fun p q => kad_distance (sha2_256 dht) (id p) k <=
                       kad_distance (sha2_256 dht) (id q) k) sorted /\
         PeerRouting.getClosestPeers dht k options w =
           (inr (firstn (kBucketSize dht) sorted), w1) /\
         (List.length (firstn (kBucketSize dht) sorted) <= kBucketSize dht)%nat) /\
    (forall peer w0 step w0',
       PeerRouting.getClosestPeers_queryFn dht k options peer w0 =
         (inr step, w0') ->
       queryComplete step = None).
Proof.
  intros Hsha seeds run w1 Hrun. split.
  - intros res members Hres Hset _.
    destruct (sortClosestPeers_sorted (sha2_256 dht) Hsha members k)
      as (sorted & Hsort & Hperm & Hsorted).
    exists sorted. repeat split; [exact Hperm | exact Hsorted | | ].
    + unfold PeerRouting.getClosestPeers, PeerRouting.query_run,
        utils.convertBuffer.
      unfold bind at 1. unfold get_world at 1. fold seeds.
      unfold bind at 1. unfold bind at 1. unfold emit at 1.
      rewrite Hrun. unfold bind at 1. unfold lift at 1.
      rewrite Hres, Hset. unfold bind, lift. rewrite Hsort. reflexivity.
    + rewrite length_firstn. lia.
  - intros peer w0 step w0' H.
    now apply getClosestPeers_queryFn_open in H.
Qed.

(** C9: for a peer the peer store does not know, [getPublicKey] cannot
    return: when the key is fetched, from the node or from the DHT, the
    assignment to the missing entry raises a [TypeError]; when fetching
    fails, that error is raised.  So a key is returned only for a peer that
    is in the peer store. *)
Theorem getPublicKey_needs_stored_peer (peer : PeerId) (w : World PS RT) :
  (peerStore_get dht (peerStore w) peer = None ->
   (forall pk w1,
      PeerRouting.getPublicKey_fetch dht peer w = (inr pk, w1) ->
      PeerRouting.getPublicKey dht peer w = (inl TypeError, w1)) /\
   (forall e w1,
      PeerRouting.getPublicKey_fetch dht peer w = (inl e, w1) ->
      PeerRouting.getPublicKey dht peer w = (inl e, w1)) /\
   exists e w1, PeerRouting.getPublicKey dht peer w = (inl e, w1)) /\
  (forall pk w',
     PeerRouting.getPublicKey dht peer w = (inr pk, w') ->
     exists peerData, peerStore_get dht (peerStore w) peer = Some peerData).
Proof.
  assert (Hnone : peerStore_get dht (peerStore w) peer = None ->
            PeerRouting.getPublicKey dht peer w =
            match PeerRouting.getPublicKey_fetch dht peer w with
            | (inl e, w1) => (inl e, w1)
            | (inr _, w1) => (inl TypeError, w1)
            end).
  { intros H. unfold PeerRouting.getPublicKey. unfold bind at 1.
    unfold get_world at 1. rewrite H. unfold bind.
    now destruct (PeerRouting.getPublicKey_fetch dht peer w) as [[e|pk] w1]. }
  split.
  - intros H. specialize (Hnone H). repeat split.
    + intros pk w1 Hf. now rewrite Hnone, Hf.
    + intros e w1 Hf. now rewrite Hnone, Hf.
    + rewrite Hnone.
      destruct (PeerRouting.getPublicKey_fetch dht peer w) as [[e|pk] w1];
        eauto.
  - intros pk w' H.
    destruct (peerStore_get dht (peerStore w) peer) as [peerData|] eqn:Hg;
      [now exists peerData|].
    rewrite (Hnone eq_refl) in H.
    destruct (PeerRouting.getPublicKey_fetch dht peer w) as [[e|pk'] w1];
      discriminate.
Qed.

End PeerRoutingFacts.

(** C7, as the code has it: [bufferToKey] gives the datastore key "/"
    followed by the base 32 text of the buffer as [encodeBase32] computes it,
    which is RFC 4648 base 32 in the upper-case alphabet, without padding. *)
Theorem bufferToKey_base32_upper (data : bytes) :
  is_buffer data ->
  utils.bufferToKey data = new_Key ("/" ++ utils.encodeBase32 data) /\
  utils.bufferToKey data =
    new_Key ("/" ++ RFC4648.encode_nopad RFC4648.upper data).
Proof.
  intros H. split; [reflexivity|].
  unfold utils.bufferToKey. now rewrite encodeBase32_rfc4648.
Qed.

(** ** The theorems at work on the small node *)


Lemma findPeer_lookup_failed_witness :
  PeerRouting.findPeer Toy.finder Toy.carol Toy.default_options Toy.w_empty =
  (inl (Coded "ERR_LOOKUP_FAILED"), Toy.w_empty).
Proof.
  exact (findPeer_lookup_failed Toy.finder Toy.carol Toy.default_options
           Toy.w_empty eq_refl eq_refl).
Defined.

Lemma findPeer_queryFn_step_witness :
  (exists found,
     In found [Toy.dave_data; Toy.carol_data] /\
     id (peer_id found) = id Toy.carol /\
     PeerRouting.findPeer_queryFn Toy.finder Toy.carol Toy.bob Toy.w_bob_table =
     (inr {| step_peer := Some found; step_closerPeers := None;
             queryComplete := Some true; pathComplete := None |},
      with_event Toy.w_bob_table (EvSendRequest Toy.bob Toy.find_carol))) /\
  PeerRouting.findPeer_queryFn Toy.finder Toy.nobody Toy.bob Toy.w_bob_table =
  (inr {| step_peer := None;
          step_closerPeers := Some [Toy.dave_data; Toy.carol_data];
          queryComplete := None; pathComplete := None |},
   with_event Toy.w_bob_table (EvSendRequest Toy.bob Toy.find_nobody)).
Proof.
  split.
  - apply (proj1 (findPeer_queryFn_step Toy.finder Toy.carol Toy.bob
                    Toy.w_bob_table _ _ eq_refl)).
    exists Toy.carol_data. split; [right; left; reflexivity | reflexivity].
  - apply (proj2 (findPeer_queryFn_step Toy.finder Toy.nobody Toy.bob
                    Toy.w_bob_table _ _ eq_refl)).
    intros p [<-|[<-|[]]]; discriminate.
Defined.

Lemma toy_reaches_query (node_ : Dht Toy.PS Toy.RT) (target : PeerId) :
  fst (PeerRouting.findPeerLocal node_ target Toy.w_bob_table) = inr None ->
  PeerRouting.findPeer_seeds node_ target Toy.w_bob_table = [Toy.bob] ->
  isEqual Toy.bob target = false ->
  PeerRouting.reaches_query node_ target Toy.w_bob_table.
Proof.
  intros Hl Hs Hne. unfold PeerRouting.reaches_query.
  rewrite Hs. repeat split; [exact Hl | discriminate |].
  left. cbn [find]. now rewrite Hne.
Qed.

Lemma findPeer_query_outcome_witness :
  PeerRouting.findPeer Toy.slow_finder Toy.carol Toy.default_options
    Toy.w_bob_table =
    (inl TimeoutError,
     with_event (snd (Toy.run_for Toy.slow_finder Toy.carol)) EvQueryStop) /\
  PeerRouting.findPeer Toy.finder Toy.nobody Toy.default_options
    Toy.w_bob_table =
    (inl (Coded "ERR_NOT_FOUND"),
     with_event (snd (Toy.run_for Toy.finder Toy.nobody)) EvQueryStop) /\
  (elapsed (fst (Toy.run_for Toy.finder Toy.carol)) < 60000 /\
   exists res,
     settled (fst (Toy.run_for Toy.finder Toy.carol)) = inr (Some res) /\
     exists r, In r (paths res) /\ success r = true).
Proof.
  split; [|split].
  - refine (proj1 (findPeer_query_outcome Toy.slow_finder Toy.carol
                     Toy.default_options Toy.w_bob_table
                     (toy_reaches_query Toy.slow_finder Toy.carol
                        eq_refl eq_refl eq_refl)
                     (fst (Toy.run_for Toy.slow_finder Toy.carol))
                     (snd (Toy.run_for Toy.slow_finder Toy.carol))
                     eq_refl) _).
    vm_compute. split; discriminate.
  - refine (proj1 (proj2 (proj2
              (findPeer_query_outcome Toy.finder Toy.nobody
                 Toy.default_options Toy.w_bob_table
                 (toy_reaches_query Toy.finder Toy.nobody
                        eq_refl eq_refl eq_refl)
                 (fst (Toy.run_for Toy.finder Toy.nobody))
                 (snd (Toy.run_for Toy.finder Toy.nobody))
                 eq_refl))) _ _ _ eq_refl _).
    + vm_compute. discriminate.
    + vm_compute. reflexivity.
    + intros r [<-|[]]. reflexivity.
  - exact (proj2 (proj2 (proj2
              (findPeer_query_outcome Toy.finder Toy.carol
                 Toy.default_options Toy.w_bob_table
                 (toy_reaches_query Toy.finder Toy.carol
                        eq_refl eq_refl eq_refl)
                 (fst (Toy.run_for Toy.finder Toy.carol))
                 (snd (Toy.run_for Toy.finder Toy.carol))
                 eq_refl))) _ _ eq_refl).
Defined.

(** The timeout of [findPeer] fires on a node whose query takes a minute:
    the failure is the [TimeoutError], not ERR_NOT_FOUND. *)
Lemma findPeer_timeout_is_not_ERR_NOT_FOUND :
  PeerRouting.reaches_query Toy.slow_finder Toy.carol Toy.w_bob_table /\
  PeerRouting.timeout_or_default Toy.default_options <=
    elapsed (fst (Toy.run_for Toy.slow_finder Toy.carol)) /\
  fst (PeerRouting.findPeer Toy.slow_finder Toy.carol Toy.default_options
         Toy.w_bob_table) = inl TimeoutError /\
  fst (PeerRouting.findPeer Toy.slow_finder Toy.carol Toy.default_options
         Toy.w_bob_table) <> inl (Coded "ERR_NOT_FOUND").
Proof.
  split; [|split; [|split]].
  - apply toy_reaches_query; reflexivity.
  - vm_compute. discriminate.
  - vm_compute. reflexivity.
  - vm_compute. discriminate.
Qed.

Lemma getClosestPeers_sorted_witness :
  exists sorted,
    Permutation [Toy.bob; Toy.dave; Toy.carol] sorted /\
    StronglySorted
      (fun p q => kad_distance Toy.sha (id p) [3; 3] <=
                  kad_distance Toy.sha (id q) [3; 3]) sorted /\
    PeerRouting.getClosestPeers Toy.finder [3; 3] Toy.deep Toy.w_bob_table =
      (inr (firstn 2 sorted), snd Toy.closest_run) /\
    (List.length (firstn 2 sorted) <= 2)%nat.
Proof.
  exact (proj1 (getClosestPeers_sorted Toy.finder [3; 3] Toy.deep
                  Toy.w_bob_table toy_sha_digest
                  (fst Toy.closest_run) (snd Toy.closest_run) eq_refl)
           _ [Toy.bob; Toy.dave; Toy.carol] eq_refl eq_refl
           ltac:(discriminate)).
Defined.

Lemma getPublicKey_needs_stored_peer_witness :
  PeerRouting.getPublicKey Toy.key_node_dht Toy.keyed Toy.w_empty =
  (inl TypeError,
   snd (PeerRouting.getPublicKey_fetch Toy.key_node_dht Toy.keyed Toy.w_empty)).
Proof.
  exact (proj1 (proj1 (getPublicKey_needs_stored_peer Toy.key_node_dht
                         Toy.keyed Toy.w_empty) eq_refl)
           (Some [7; 7]) _ eq_refl).
Defined.

(** C1: every node answers GET_VALUE with the public key [7; 7], and the
    peer asked for has the digest of that key as its id, so the key is the
    right one.  The comparison of [getPublicKeyFromNode] is made on a promise
    that was not awaited and raises a [TypeError]; [getPublicKey] catches it
    and asks the DHT, which has no record: the right key is not returned.
    For a peer with another id the same happens, and the failure is not
    ERR_PUBLIC_KEY_DOES_NOT_MATCH_ID at either place. *)
Theorem getPublicKey_node_key_is_never_compared :
  (exists derived,
     Toy.createFromPubKey [7; 7] = inr derived /\
     isEqual derived Toy.keyed = true /\ isEqual derived Toy.bob = false) /\
  fst (PeerRouting.getPublicKeyFromNode Toy.key_node Toy.keyed
         Toy.w_keyed_stored) = inl TypeError /\
  fst (PeerRouting.getPublicKey Toy.key_node Toy.keyed Toy.w_keyed_stored) =
    inl (Coded "ERR_NOT_FOUND") /\
  fst (PeerRouting.getPublicKeyFromNode Toy.key_node Toy.bob
         Toy.w_bob_stored) = inl TypeError /\
  fst (PeerRouting.getPublicKey Toy.key_node Toy.bob Toy.w_bob_stored) =
    inl (Coded "ERR_NOT_FOUND").
Proof.
  split; [|repeat split; vm_compute; reflexivity].
  eexists. split; [reflexivity|]. split; vm_compute; reflexivity.
Qed.

Lemma hello_world_buffer : is_buffer (Buffer_from "hello world").
Proof.
  apply Forall_forall. intros b Hb. unfold is_byte.
  cbv in Hb. intuition (subst; lia).
Qed.

Lemma bufferToKey_base32_upper_witness :
  utils.bufferToKey (Buffer_from "hello world") =
  new_Key ("/" ++ RFC4648.encode_nopad RFC4648.upper (Buffer_from "hello world")).
Proof.
  exact (proj2 (bufferToKey_base32_upper (Buffer_from "hello world")
                  hello_world_buffer)).
Defined.

(** The key of the buffer "hello world" is spelled in upper case. *)
Lemma bufferToKey_is_not_lowercase :
  is_buffer (Buffer_from "hello world") /\
  utils.bufferToKey (Buffer_from "hello world") =
    new_Key "/NBSWY3DPEB3W64TMMQ" /\
  new_Key ("/" ++ RFC4648.encode_nopad RFC4648.lower (Buffer_from "hello world"))
    = new_Key "/nbswy3dpeb3w64tmmq" /\
  utils.bufferToKey (Buffer_from "hello world") <>
    new_Key ("/" ++ RFC4648.encode_nopad RFC4648.lower (Buffer_from "hello world")).
Proof.
  split; [exact hello_world_buffer|].
  split; [vm_compute; reflexivity|].
  split; [vm_compute; reflexivity|].
  vm_compute. discriminate.
Qed.

(** ** Decoding what the encoder wrote *)

Lemma joint_checks_hold :
  Base32State.all_pairs Base32Joint.final_check Base32Joint.step_check
    [1; 2; 3; 4; 5] 256 256 = true.
Proof. vm_compute. reflexivity. Qed.

Lemma first_checks_hold :
  forallb Base32Joint.first_check (Base32State.upto 256) = true.
Proof. vm_compute. reflexivity. Qed.

Lemma toUpperCase_app (s1 s2 : string) :
  base32.toUpperCase (s1 ++ s2) =
  (base32.toUpperCase s1 ++ base32.toUpperCase s2)%string.
Proof. induction s1 as [|c s1 IH]; cbn; [reflexivity | now rewrite IH]. Qed.

Lemma decode_chars_app (s1 s2 : string) (d : base32.Decoder) :
  base32.decode_chars d (s1 ++ s2) =
  base32.decode_chars (base32.decode_chars d s1) s2.
Proof. revert d; induction s1 as [|c s1 IH]; intros d; cbn; auto. Qed.

Lemma decoder_write_app (s1 s2 : string) (d : base32.Decoder) :
  base32.decoder_write d (s1 ++ s2) =
  base32.decoder_write (base32.decoder_write d s1) s2.
Proof.
  unfold base32.decoder_write. now rewrite toUpperCase_app, decode_chars_app.
Qed.

(** The decoder only ever appends to its output. *)
Lemma decode_char_output (l : list Z) (sh c : Z) (char : ascii) :
  let d0 := base32.decode_char (base32.mkDecoder [] sh c) char in
  base32.decode_char (base32.mkDecoder l sh c) char =
  base32.mkDecoder (l ++ base32.dec_buf d0)
    (base32.dec_shift d0) (base32.dec_carry d0).
Proof.
  unfold base32.decode_char.
  cbn [base32.dec_buf base32.dec_shift base32.dec_carry].
  destruct (Ascii.eqb char "=");
    [cbn; now rewrite app_nil_r|].
  destruct (0 <? sh - 5); [cbn; now rewrite app_nil_r|].
  destruct (sh - 5 <? 0); reflexivity.
Qed.

Lemma decode_chars_output (s : string) :
  forall (l : list Z) (sh c : Z),
    let d0 := base32.decode_chars (base32.mkDecoder [] sh c) s in
    base32.decode_chars (base32.mkDecoder l sh c) s =
    base32.mkDecoder (l ++ base32.dec_buf d0)
      (base32.dec_shift d0) (base32.dec_carry d0).
Proof.
  induction s as [|char s IH]; intros l sh c.
  - cbn. now rewrite app_nil_r.
  - cbn [base32.decode_chars]. cbv zeta.
    rewrite (decode_char_output l sh c char). cbv zeta.
    destruct (base32.decode_char (base32.mkDecoder [] sh c) char)
      as [l0 sh0 c0].
    cbn [base32.dec_buf base32.dec_shift base32.dec_carry].
    rewrite (IH (l ++ l0) sh0 c0), (IH l0 sh0 c0). cbv zeta.
    cbn [base32.dec_buf base32.dec_shift base32.dec_carry].
    now rewrite app_assoc.
Qed.

Lemma decoder_finalize_output (l l0 : list Z) (sh c : Z) :
  base32.decoder_finalize (base32.mkDecoder (l ++ l0) sh c) =
  l ++ base32.decoder_finalize (base32.mkDecoder l0 sh c).
Proof.
  unfold base32.decoder_finalize.
  cbn [base32.dec_buf base32.dec_shift base32.dec_carry].
  destruct (negb (sh =? 8) && negb (c =? 0)); [now rewrite app_assoc | reflexivity].
Qed.

Lemma same_decoder_eq (d d' : base32.Decoder) :
  Base32Joint.same_decoder d d' = true -> d = d'.
Proof.
  destruct d as [l sh c], d' as [l' sh' c']. unfold Base32Joint.same_decoder.
  cbn [base32.dec_buf base32.dec_shift base32.dec_carry]. intros H.
  apply andb_true_iff in H as [H Hc]. apply andb_true_iff in H as [Hl Hs].
  apply bytes_eqb_eq in Hl. apply Z.eqb_eq in Hs, Hc. now subst.
Qed.

(** What one agreed step gives: the text written for [b] followed by the
    text from the next joint state, and the decoder's state after that
    text. *)
Lemma step_agrees_text (e : base32.Encoder) (d : base32.Decoder)
      (decoded : list Z) (b : Z) (data : bytes) :
  Base32Joint.step_agrees e d decoded b = true ->
  is_byte b -> is_buffer data ->
  base32.alphabet e = base32.rfc4648_alphabet ->
  Base32State.state_ok (base32.shift e) (base32.carry e) = true ->
  exists p',
    In p' [1; 2; 3; 4; 5] /\
    base32.finalize (base32.write e (b :: data)) =
      (base32.buf (base32.write_byte e b) ++
       base32.finalize (base32.write (Base32Joint.enc_at p' b) data))%string /\
    base32.decoder_write d (base32.buf (base32.write_byte e b)) =
      base32.mkDecoder decoded p'
        (base32.dec_carry (Base32Joint.dec_at p' b)).
Proof.
  intros Hs Hb Hdata HA Hok. unfold Base32Joint.step_agrees in Hs.
  set (e' := base32.write_byte e b) in *.
  set (p' := base32.shift e' - 3) in *.
  apply andb_true_iff in Hs as [Hs Hdec].
  apply andb_true_iff in Hs as [Hs Hcarry].
  apply andb_true_iff in Hs as [Hs Hok'].
  apply andb_true_iff in Hs as [Hp1 Hp5].
  apply Z.leb_le in Hp1, Hp5. apply Z.eqb_eq in Hcarry.
  apply same_decoder_eq in Hdec.
  exists p'. split; [|split].
  - simpl. assert (p' = 1 \/ p' = 2 \/ p' = 3 \/ p' = 4 \/ p' = 5) by lia.
    intuition.
  - change (base32.write e (b :: data)) with (base32.write e' data).
    destruct (write_byte_step e b Hb HA Hok) as (_ & _ & _ & _ & HA' & _).
    fold e' in HA'.
    rewrite (write_finalize data Hdata e' HA' Hok'). f_equal.
    assert (Hsh : base32.shift (Base32Joint.enc_at p' b) = base32.shift e')
      by (unfold Base32Joint.enc_at, Base32State.enc, p'; cbn; lia).
    assert (Hok2 : Base32State.state_ok
                     (base32.shift (Base32Joint.enc_at p' b))
                     (base32.carry (Base32Joint.enc_at p' b)) = true).
    { rewrite Hsh, <- Hcarry, state_ok_land. exact Hok'. }
    rewrite (write_finalize data Hdata (Base32Joint.enc_at p' b) eq_refl Hok2).
    cbn [base32.buf Base32Joint.enc_at Base32State.enc]. cbn [String.append].
    unfold Base32State.pending_of. rewrite Hsh, <- Hcarry.
    now rewrite <- Z.land_assoc, Z.land_diag.
  - rewrite Hdec. reflexivity.
Qed.

Lemma joint_at (p prev : Z) :
  In p [1; 2; 3; 4; 5] -> is_byte prev ->
  Base32Joint.final_check p prev = true /\
  forall b, is_byte b -> Base32Joint.step_check p prev b = true.
Proof.
  intros Hp Hprev.
  destruct (forallb_nested Base32Joint.final_check Base32Joint.step_check
              [1; 2; 3; 4; 5] 256 256 joint_checks_hold p prev Hp)
    as [Hf Hs].
  - unfold is_byte in Hprev. lia.
  - split; [exact Hf|]. intros b Hb. apply Hs. unfold is_byte in Hb. lia.
Qed.

(** From a joint state, decoding the rest of the encoder's text gives the
    split byte and then the bytes still to be encoded. *)
Lemma decode_from_joint (data : bytes) :
  is_buffer data ->
  forall p prev, In p [1; 2; 3; 4; 5] -> is_byte prev ->
    base32.decoder_finalize
      (base32.decoder_write (Base32Joint.dec_at p prev)
         (base32.finalize (base32.write (Base32Joint.enc_at p prev) data)))
    = prev :: data.
Proof.
  induction 1 as [|b data Hb Hdata IH]; intros p prev Hp Hprev;
    destruct (joint_at p prev Hp Hprev) as [Hfin Hstep].
  - cbn [base32.write fold_left].
    unfold Base32Joint.final_check in Hfin.
    apply andb_true_iff in Hfin as [_ Hfin]. now apply bytes_eqb_eq in Hfin.
  - unfold Base32Joint.final_check in Hfin.
    apply andb_true_iff in Hfin as [Hok _].
    destruct (step_agrees_text _ _ _ b data (Hstep b Hb) Hb Hdata eq_refl Hok)
      as (p' & Hp' & Htext & Hdec).
    rewrite Htext, decoder_write_app, Hdec.
    unfold base32.decoder_write.
    rewrite (decode_chars_output _ [prev] p' _). cbv zeta.
    pose proof (IH p' b Hp' Hb) as IH'.
    unfold base32.decoder_write, Base32Joint.dec_at in IH'.
    destruct (base32.decode_chars _ _) as [l0 sh0 c0] eqn:Hd in IH' |- *.
    cbn [base32.dec_buf base32.dec_shift base32.dec_carry].
    rewrite decoder_finalize_output, IH'. reflexivity.
Qed.

Lemma buffer_from_array_id (data : bytes) :
  is_buffer data -> utils.Buffer_from_array data = data.
Proof.
  induction 1 as [|b data Hb _ IH]; [reflexivity|].
  cbn. unfold utils.Buffer_from_array in IH. rewrite IH. f_equal.
  change 255 with (Z.ones 8). rewrite Z.land_ones by lia.
  apply Z.mod_small. exact Hb.
Qed.

Lemma decode_encode (data : bytes) :
  is_buffer data -> utils.decodeBase32 (utils.encodeBase32 data) = data.
Proof.
  intros H. unfold utils.decodeBase32, utils.encodeBase32.
  destruct H as [|b data Hb Hdata]; [reflexivity|].
  assert (Hfirst : Base32Joint.first_check b = true).
  { pose proof first_checks_hold as Hall. rewrite forallb_forall in Hall.
    apply Hall, upto_In. unfold is_byte in Hb. lia. }
  destruct (step_agrees_text _ _ _ b data Hfirst Hb Hdata eq_refl eq_refl)
    as (p' & Hp' & Htext & Hdec).
  rewrite Htext, decoder_write_app, Hdec.
  change (base32.mkDecoder [] p' (base32.dec_carry (Base32Joint.dec_at p' b)))
    with (Base32Joint.dec_at p' b).
  rewrite (decode_from_joint data Hdata p' b Hp' Hb).
  apply buffer_from_array_id. now constructor.
Qed.

(** ** More on the utilities *)

(** [decodeBase32] undoes [encodeBase32] on every buffer. *)
Theorem decodeBase32_encodeBase32 (data : bytes) :
  is_buffer data -> utils.decodeBase32 (utils.encodeBase32 data) = data.
Proof. exact (decode_encode data). Qed.

Lemma decodeBase32_encodeBase32_witness :
  utils.decodeBase32 (utils.encodeBase32 (Buffer_from "hello world")) =
  Buffer_from "hello world".
Proof.
  exact (decodeBase32_encodeBase32 (Buffer_from "hello world")
           hello_world_buffer).
Defined.

(** Different buffers get different datastore keys. *)
Theorem bufferToKey_injective (a b : bytes) :
  is_buffer a -> is_buffer b ->
  utils.bufferToKey a = utils.bufferToKey b -> a = b.
Proof.
  intros Ha Hb H. unfold utils.bufferToKey in H.
  injection H as H.
  rewrite <- (decode_encode a Ha), <- (decode_encode b Hb). now rewrite H.
Qed.

Lemma bufferToKey_injective_witness :
  Buffer_from "hello world" = [104; 101; 108; 108; 111; 32; 119; 111; 114; 108; 100].
Proof.
  apply bufferToKey_injective.
  - exact hello_world_buffer.
  - apply Forall_forall. intros b Hb. unfold is_byte.
    cbv in Hb. intuition (subst; lia).
  - reflexivity.
Defined.

Lemma quintet_range (a b c d e : bool) : 0 <= RFC4648.quintet a b c d e < 32.
Proof. destruct a, b, c, d, e; cbv; split; congruence. Qed.

Lemma quintets_range (l : list bool) :
  Forall (fun q => 0 <= q < 32) (RFC4648.quintets l).
Proof.
  assert (H : forall n l, (List.length l <= n)%nat ->
            Forall (fun q => 0 <= q < 32) (RFC4648.quintets l)).
  { induction n as [|n IH]; intros l0 Hl.
    - destruct l0; [constructor | cbn in Hl; lia].
    - destruct l0 as [|a [|b [|c [|d [|e r]]]]]; cbn [RFC4648.quintets];
        repeat constructor; try apply quintet_range.
      apply IH. cbn in Hl. lia. }
  exact (H (List.length l) l (le_n _)).
Qed.

Lemma quintets_length (l : list bool) :
  List.length (RFC4648.quintets l) = ((List.length l + 4) / 5)%nat.
Proof.
  assert (H : forall n l, (List.length l <= n)%nat ->
            List.length (RFC4648.quintets l) = ((List.length l + 4) / 5)%nat).
  { induction n as [|n IH]; intros l0 Hl.
    - destruct l0; [reflexivity | cbn in Hl; lia].
    - destruct l0 as [|a [|b [|c [|d [|e r]]]]]; try reflexivity.
      cbn [RFC4648.quintets List.length]. rewrite IH by (cbn in Hl; lia).
      replace (S (S (S (S (S (List.length r)))) ) + 4)%nat
        with ((List.length r + 4) + 1 * 5)%nat by lia.
      rewrite Nat.div_add by lia. lia. }
  exact (H (List.length l) l (le_n _)).
Qed.

Lemma bits_of_length (data : bytes) :
  List.length (RFC4648.bits_of data) = (8 * List.length data)%nat.
Proof.
  induction data as [|b data IH]; [reflexivity|].
  unfold RFC4648.bits_of in *. cbn [flat_map].
  rewrite length_app, IH. cbn [List.length RFC4648.bits_of_byte map]. lia.
Qed.

Lemma charAt_letter (q : Z) :
  0 <= q < 32 ->
  exists c, base32.charAt base32.rfc4648_alphabet q = String c EmptyString /\
            In c (list_ascii_of_string base32.rfc4648_alphabet).
Proof.
  intros Hq.
  assert (Hall : forallb (fun q =>
            match base32.charAt base32.rfc4648_alphabet q with
            | String c EmptyString =>
                existsb (Ascii.eqb c)
                  (list_ascii_of_string base32.rfc4648_alphabet)
            | _ => false
            end) (Base32State.upto 32) = true) by (vm_compute; reflexivity).
  rewrite forallb_forall in Hall.
  specialize (Hall q (upto_In 32 q Hq)).
  destruct (base32.charAt base32.rfc4648_alphabet q) as [|c [|? ?]];
    try discriminate.
  exists c. split; [reflexivity|].
  apply existsb_exists in Hall. destruct Hall as (x & Hin & Hx).
  apply Ascii.eqb_eq in Hx. now subst.
Qed.

Lemma letters_shape (l : list Z) :
  Forall (fun q => 0 <= q < 32) l ->
  String.length (RFC4648.letters base32.rfc4648_alphabet l) = List.length l /\
  forall c,
    In c (list_ascii_of_string (RFC4648.letters base32.rfc4648_alphabet l)) ->
    In c (list_ascii_of_string base32.rfc4648_alphabet).
Proof.
  induction 1 as [|q l Hq Hl [IHlen IHin]].
  - split; [reflexivity | intros c []].
  - destruct (charAt_letter q Hq) as (x & Hx & Hxin).
    unfold RFC4648.letters in *. cbn [fold_right]. rewrite Hx.
    cbn [String.append String.length list_ascii_of_string List.length].
    split; [now rewrite IHlen|].
    intros c [<-|Hc]; [exact Hxin | now apply IHin].
Qed.

(** The text of [encodeBase32] has one letter for every five bits begun,
    [ceil(8 n / 5)] for [n] bytes, all of them from the upper-case alphabet:
    there is no padding character. *)
Theorem encodeBase32_shape (data : bytes) :
  is_buffer data ->
  String.length (utils.encodeBase32 data) =
    ((8 * List.length data + 4) / 5)%nat /\
  forall c, In c (list_ascii_of_string (utils.encodeBase32 data)) ->
            In c (list_ascii_of_string "ABCDEFGHIJKLMNOPQRSTUVWXYZ234567").
Proof.
  intros H. rewrite (encodeBase32_rfc4648 data H).
  unfold RFC4648.encode_nopad.
  destruct (letters_shape _ (quintets_range (RFC4648.bits_of data)))
    as [Hlen Hin].
  split; [|exact Hin].
  change RFC4648.upper with base32.rfc4648_alphabet.
  now rewrite Hlen, quintets_length, bits_of_length.
Qed.

Lemma encodeBase32_shape_witness :
  String.length (utils.encodeBase32 (Buffer_from "hello world")) = 18%nat.
Proof.
  exact (proj1 (encodeBase32_shape (Buffer_from "hello world")
                  hello_world_buffer)).
Defined.

Lemma toString_code (b c : Z) :
  0 <= c < 128 -> ((if b <? 128 then b else 65533) =? c) = (b =? c).
Proof.
  intros Hc. destruct (Z.ltb_spec b 128); [reflexivity|].
  destruct (Z.eqb_spec 65533 c), (Z.eqb_spec b c); try reflexivity; lia.
Qed.

Lemma public_key_prefix (k : bytes) :
  utils.isPublicKeyKey k = true <-> exists rest, k = Buffer_from "/pk/" ++ rest.
Proof.
  unfold utils.isPublicKeyKey, Buffer_slice, Buffer_toString.
  change (code_units "/pk/") with [47; 112; 107; 47].
  change (Buffer_from "/pk/") with [47; 112; 107; 47].
  cbn [skipn Nat.sub].
  split.
  - destruct k as [|a [|b [|c [|d rest]]]]; cbn [firstn map bytes_eqb];
      rewrite ?andb_false_r; try discriminate.
    rewrite !toString_code by lia. intros H.
    repeat (apply andb_true_iff in H as [?H H]).
    repeat match goal with E : (_ =? _) = true |- _ => apply Z.eqb_eq in E end.
    subst. now exists rest.
  - intros (rest & ->). reflexivity.
Qed.

(** [isPublicKeyKey] accepts exactly the keys that begin with the four
    bytes of "/pk/". *)
Theorem isPublicKeyKey_prefix (k : bytes) :
  utils.isPublicKeyKey k = true <-> exists rest, k = Buffer_from "/pk/" ++ rest.
Proof. exact (public_key_prefix k). Qed.

Lemma isPublicKeyKey_prefix_witness :
  utils.isPublicKeyKey [47; 112; 107; 47; 9] = true /\
  utils.isPublicKeyKey [47; 112; 107; 46; 9] = false.
Proof.
  split.
  - apply (proj2 (isPublicKeyKey_prefix [47; 112; 107; 47; 9])).
    now exists [9].
  - destruct (utils.isPublicKeyKey [47; 112; 107; 46; 9]) eqn:E;
      [|reflexivity].
    apply (proj1 (isPublicKeyKey_prefix _)) in E.
    destruct E as (rest & E). discriminate E.
Defined.

(** Keys that [isPublicKeyKey] accepts are rebuilt by [keyForPublicKey] from
    the peer id that [fromPublicKeyKey] reads out of them, and two peers
    have the same key only if they have the same id. *)
Theorem fromPublicKeyKey_roundtrip (k : bytes) (p q : PeerId) :
  (utils.isPublicKeyKey k = true ->
   utils.keyForPublicKey (utils.fromPublicKeyKey k) = k) /\
  (utils.keyForPublicKey p = utils.keyForPublicKey q -> id p = id q).
Proof.
  split.
  - intros H. apply public_key_prefix in H. destruct H as (rest & ->).
    unfold utils.keyForPublicKey, utils.fromPublicKeyKey, Buffer_concat.
    cbn. now rewrite app_nil_r.
  - unfold utils.keyForPublicKey, Buffer_concat. cbn.
    rewrite !app_nil_r. intros H. now injection H.
Qed.

Lemma fromPublicKeyKey_roundtrip_witness :
  utils.keyForPublicKey (utils.fromPublicKeyKey [47; 112; 107; 47; 1; 2]) =
  [47; 112; 107; 47; 1; 2].
Proof.
  exact (proj1 (fromPublicKeyKey_roundtrip [47; 112; 107; 47; 1; 2]
                  Toy.alice Toy.bob) eq_refl).
Defined.

Lemma pathSize_value (resultsWanted numPaths : Z) :
  1 <= numPaths ->
  utils.pathSize resultsWanted numPaths = - ((- resultsWanted) / numPaths).
Proof.
  intros H. unfold utils.pathSize, utils.Math_ceil. apply Qceiling_div. lia.
Qed.

(** [pathSize] never asks a path for more than the results wanted, asks for
    exactly one result when there are at least as many paths as results
    wanted, is the identity for a single path, and grows with the number of
    results wanted. *)
Theorem pathSize_bounds (resultsWanted numPaths : Z) :
  1 <= resultsWanted -> 1 <= numPaths ->
  utils.pathSize resultsWanted numPaths <= resultsWanted /\
  (resultsWanted <= numPaths -> utils.pathSize resultsWanted numPaths = 1) /\
  utils.pathSize resultsWanted 1 = resultsWanted /\
  (forall more, resultsWanted <= more ->
     utils.pathSize resultsWanted numPaths <= utils.pathSize more numPaths).
Proof.
  intros Ha Hb. rewrite !pathSize_value by lia.
  pose proof (Z.div_mod (- resultsWanted) numPaths ltac:(lia)) as Hdm.
  pose proof (Z.mod_pos_bound (- resultsWanted) numPaths ltac:(lia)) as Hm.
  split; [nia|]. split; [intros Hle; nia|]. split.
  - rewrite Z.div_1_r. lia.
  - intros more Hmore. rewrite pathSize_value by lia.
    assert ((- more) / numPaths <= (- resultsWanted) / numPaths)
      by (apply Z.div_le_mono; lia).
    lia.
Qed.

Lemma pathSize_bounds_witness :
  utils.pathSize 20 3 <= 20 /\ utils.pathSize 20 1 = 20.
Proof.
  destruct (pathSize_bounds 20 3 ltac:(lia) ltac:(lia)) as (H1 & _ & H3 & _).
  exact (conj H1 H3).
Defined.

Lemma xor_bytes_comm (a b : bytes) :
  distance.xor_bytes a b = distance.xor_bytes b a.
Proof.
  revert b; induction a as [|x a IH]; intros [|y b]; cbn; try reflexivity.
  now rewrite Z.lxor_comm, IH.
Qed.

Lemma xor_bytes_cancel (a b : bytes) :
  List.length a = List.length b ->
  distance.xor_bytes (distance.xor_bytes a b) b = a /\
  List.length (distance.xor_bytes a b) = List.length b.
Proof.
  revert b; induction a as [|x a IH]; intros [|y b] H; cbn in *;
    try discriminate; [now split|].
  injection H as H. destruct (IH b H) as [E L]. split; [|now rewrite L].
  rewrite E, Z.lxor_assoc, Z.lxor_nilpotent, Z.lxor_0_r. reflexivity.
Qed.

Lemma xor_bytes_zero (a b : bytes) :
  List.length a = List.length b ->
  (distance.xor_bytes a b = repeat 0 (List.length a) <-> a = b).
Proof.
  revert b; induction a as [|x a IH]; intros [|y b] H; cbn in *;
    try discriminate; [tauto|].
  injection H as H. specialize (IH b H). split.
  - intros E. injection E as Ex Er. apply Z.lxor_eq in Ex.
    apply IH in Er. now subst.
  - intros E. injection E as -> ->.
    rewrite Z.lxor_nilpotent. f_equal. now apply IH.
Qed.

(** [distance] throws on inputs of different lengths; on inputs of equal
    length it is symmetric, undone by a second XOR with the same input, and
    all zero exactly when the inputs are equal. *)
Theorem distance_xor (a b : bytes) :
  (List.length a <> List.length b ->
   distance.dist a b = inl distance.length_error) /\
  distance.dist a b = distance.dist b a /\
  (List.length a = List.length b ->
   exists d, distance.dist a b = inr d /\
             distance.dist d b = inr a /\
             (d = repeat 0 (List.length a) <-> a = b)).
Proof.
  unfold distance.dist. split; [|split].
  - intros H. apply Nat.eqb_neq in H. now rewrite H.
  - rewrite (Nat.eqb_sym (List.length b)), xor_bytes_comm. reflexivity.
  - intros H. rewrite H, Nat.eqb_refl. eexists. split; [reflexivity|].
    destruct (xor_bytes_cancel a b H) as [E L].
    rewrite L, Nat.eqb_refl, E. split; [reflexivity|].
    rewrite <- H. now apply xor_bytes_zero.
Qed.

Lemma distance_xor_witness :
  distance.dist [1; 2] [3] = inl distance.length_error /\
  exists d, distance.dist [1; 2] [3; 6] = inr d /\
            distance.dist d [3; 6] = inr [1; 2].
Proof.
  split.
  - apply (proj1 (distance_xor [1; 2] [3])). discriminate.
  - destruct (proj2 (proj2 (distance_xor [1; 2] [3; 6])) eq_refl)
      as (d & H1 & H2 & _).
    exists d. split; assumption.
Defined.

Lemma compare_from_sign (a : bytes) :
  is_buffer a -> forall b, is_buffer b -> List.length a = List.length b ->
  (distance.compare_from a b = -1 /\ be_value a < be_value b) \/
  (distance.compare_from a b = 0 /\ a = b) \/
  (distance.compare_from a b = 1 /\ be_value b < be_value a).
Proof.
  induction 1 as [|x a Hx Ha IH]; intros b Hb Hlen.
  - destruct b; [|discriminate]. right. left. split; reflexivity.
  - destruct b as [|y b]; [discriminate|].
    inversion Hb as [|? ? Hy Hb']; subst. injection Hlen as Hlen.
    cbn [distance.compare_from]. rewrite !be_value_cons, <- Hlen.
    pose proof (be_value_bound a Ha) as Ba.
    pose proof (be_value_bound b Hb') as Bb. rewrite <- Hlen in Bb.
    set (W := 256 ^ Z.of_nat (List.length a)) in *.
    destruct (Z.eqb_spec x y) as [->|Hne].
    + destruct (IH b Hb' Hlen) as [[E L]|[[E L]|[E L]]].
      * left. split; [exact E | lia].
      * right. left. split; [exact E | now subst].
      * right. right. split; [exact E | lia].
    + destruct (Z.ltb_spec x y).
      * left. split; [reflexivity | nia].
      * right. right. split; [reflexivity | nia].
Qed.

(** [distance.compare] throws on inputs of different lengths; on buffers of
    equal length it answers -1, 0 or 1 as the first is below, equal to or
    above the second, read as unsigned big-endian numbers, and 0 only for
    equal buffers. *)
Theorem distance_compare_order (a b : bytes) :
  is_buffer a -> is_buffer b ->
  (List.length a <> List.length b ->
   distance.compare a b = inl distance.length_error) /\
  (List.length a = List.length b ->
   (distance.compare a b = inr (-1) /\ be_value a < be_value b) \/
   (distance.compare a b = inr 0 /\ a = b) \/
   (distance.compare a b = inr 1 /\ be_value b < be_value a)).
Proof.
  intros Ha Hb. unfold distance.compare. split.
  - intros H. apply Nat.eqb_neq in H. now rewrite H.
  - intros H. rewrite H, Nat.eqb_refl.
    destruct (compare_from_sign a Ha b Hb H) as [[E L]|[[E L]|[E L]]];
      rewrite E; auto.
Qed.

Lemma distance_compare_order_witness :
  distance.compare [1; 255] [2; 0] = inr (-1) /\ be_value [1; 255] < be_value [2; 0].
Proof.
  assert (B1 : is_buffer [1; 255]) by (repeat constructor; unfold is_byte; lia).
  assert (B2 : is_buffer [2; 0]) by (repeat constructor; unfold is_byte; lia).
  destruct (proj2 (distance_compare_order [1; 255] [2; 0] B1 B2) eq_refl)
    as [H|[[H _]|[H _]]]; [exact H | discriminate H | discriminate H].
Defined.

(** [sortClosestPeers] gives the empty list for no peers, and throws the
    length error of [distance] for any other input when the target is not as
    long as the digests. *)
Theorem sortClosestPeers_length_error
        (sha : bytes -> bytes) (peers : list PeerId) (target : bytes) :
  digest_32 sha ->
  utils.sortClosestPeers sha [] target = inr [] /\
  (List.length target <> 32%nat -> peers <> [] ->
   utils.sortClosestPeers sha peers target = inl distance.length_error).
Proof.
  intros Hsha. split; [reflexivity|].
  intros Hlen Hne. destruct peers as [|p peers]; [congruence|].
  unfold utils.sortClosestPeers. cbn [mapR].
  unfold utils.convertPeerId, distance.dist.
  destruct (Hsha (id p)) as [_ L]. rewrite L.
  destruct (Nat.eqb_spec 32 (List.length target)); [congruence|].
  reflexivity.
Qed.

Lemma sortClosestPeers_length_error_witness :
  utils.sortClosestPeers Toy.sha [Toy.bob] [1; 2; 3] =
  inl distance.length_error.
Proof.
  apply (proj2 (sortClosestPeers_length_error Toy.sha [Toy.bob] [1; 2; 3]
                  toy_sha_digest)); discriminate.
Defined.

(** ** More on peer routing *)

Section PeerRoutingMore.
Context {PS RT : Type} (dht : Dht PS RT).

Lemma set_peerStore_same (w : World PS RT) : set_peerStore w (peerStore w) = w.
Proof. now destruct w. Qed.

Lemma mapM_add_peers (l : list PeerData) (w : World PS RT) :
  PeerRouting.mapM
    (fun peerData =>
       bind (PeerRouting.addressBook_add_ dht (peer_id peerData)
               (multiaddrs peerData))
            (fun _ => ret peerData)) l w =
  (inr l, set_peerStore w (add_peers dht (peerStore w) l)).
Proof.
  revert w; induction l as [|pd l IH]; intros w.
  - cbn. now rewrite set_peerStore_same.
  - cbn [PeerRouting.mapM]. unfold bind at 1. unfold bind at 1.
    unfold PeerRouting.addressBook_add_ at 1. unfold ret at 1.
    unfold bind at 1. rewrite IH. reflexivity.
Qed.

(** [closerPeersSingle] passes a network error on; from a reply it returns
    the [closerPeers] other than the node itself, in the reply's order, after
    adding each of them, in that order, to the address book. *)
Theorem closerPeersSingle_effect (k : bytes) (peer : PeerId) (w : World PS RT) :
  let request := new_Message FIND_NODE k 0 in
  let sent := with_event w (EvSendRequest peer request) in
  (forall e w',
     network_exchange dht peer request sent = (inl e, w') ->
     PeerRouting.closerPeersSingle dht k peer w = (inl e, w')) /\
  (forall reply w',
     network_exchange dht peer request sent = (inr reply, w') ->
     let kept :=
       filter (fun pd => negb (isEqual (peerId dht) (peer_id pd)))
              (closerPeers reply) in
     PeerRouting.closerPeersSingle dht k peer w =
       (inr kept, set_peerStore w' (add_peers dht (peerStore w') kept)) /\
     forall pd, In pd kept ->
       In pd (closerPeers reply) /\ id (peer_id pd) <> id (peerId dht)).
Proof.
  intros request sent.
  assert (Hc : PeerRouting.closerPeersSingle dht k peer w =
            match network_exchange dht peer request sent with
            | (inl e, w') => (inl e, w')
            | (inr reply, w') =>
                (inr (filter (fun pd => negb (isEqual (peerId dht) (peer_id pd)))
                             (closerPeers reply)),
                 set_peerStore w'
                   (add_peers dht (peerStore w')
                      (filter (fun pd => negb (isEqual (peerId dht) (peer_id pd)))
                              (closerPeers reply))))
            end).
  { unfold PeerRouting.closerPeersSingle, PeerRouting._findPeerSingle,
      PeerRouting.network_sendRequest.
    unfold bind at 1. unfold bind at 1. unfold emit at 1.
    cbn [id]. fold request. fold sent.
    destruct (network_exchange dht peer request sent) as [[e|reply] w'];
      [reflexivity|].
    apply mapM_add_peers. }
  rewrite Hc. split.
  - intros e w' H. now rewrite H.
  - intros reply w' H kept. rewrite H. split.
    + reflexivity.
    + intros pd Hin. apply filter_In in Hin. destruct Hin as [Hin Hself].
      split; [exact Hin|].
      intros E. apply negb_true_iff in Hself.
      assert (isEqual (peerId dht) (peer_id pd) = true)
        by (apply isEqual_id; congruence).
      congruence.
Qed.

Lemma getPublicKeyFromNode_cases (peer : PeerId) (w : World PS RT) :
  let request := new_Message GET_VALUE (utils.keyForPublicKey peer) 0 in
  let sent := with_event w (EvSendRequest peer request) in
  PeerRouting.getPublicKeyFromNode dht peer w =
  match network_exchange dht peer request sent with
  | (inl e, w1) => (inl e, w1)
  | (inr reply, w1) => (inl TypeError, w1)
  end.
Proof.
  intros request sent.
  unfold PeerRouting.getPublicKeyFromNode, PeerRouting.getValueSingle,
    PeerRouting.network_sendRequest, bind, emit.
  fold request. fold sent.
  destruct (network_exchange dht peer request sent) as [[e|reply] w1];
    [reflexivity|].
  destruct (record reply) as [r|]; [|reflexivity].
  destruct (record_value r) as [value|]; reflexivity.
Qed.

(** [getPublicKeyFromNode] asks for the key "/pk/" followed by the peer's id
    and passes a network error on.  Whatever the reply, it raises a
    [TypeError] and returns no key: without a record or a value, err-code
    refuses the string it is given; with a value, the comparison is called
    on the promise of [PeerId.createFromPubKey]. *)
Theorem getPublicKeyFromNode_raises (peer : PeerId) (w : World PS RT) :
  let request := new_Message GET_VALUE (utils.keyForPublicKey peer) 0 in
  let sent := with_event w (EvSendRequest peer request) in
  (utils.isPublicKeyKey (key request) = true /\
   id (utils.fromPublicKeyKey (key request)) = id peer) /\
  (forall e w',
     network_exchange dht peer request sent = (inl e, w') ->
     PeerRouting.getPublicKeyFromNode dht peer w = (inl e, w')) /\
  (forall reply w',
     network_exchange dht peer request sent = (inr reply, w') ->
     PeerRouting.getPublicKeyFromNode dht peer w = (inl TypeError, w')).
Proof.
  intros request sent.
  pose proof (getPublicKeyFromNode_cases peer w) as Hc.
  cbv zeta in Hc. fold request in Hc. fold sent in Hc.
  split; [|split].
  - destruct (keyForPublicKey_roundtrip_parts peer) as [H1 H2]. now split.
  - intros e w' H. now rewrite Hc, H.
  - intros reply w' H. now rewrite Hc, H.
Qed.


Lemma forEach_path_adds (l : list PathResult) :
  (forall r, In r l -> success r = true -> path_peer r <> None) ->
  forall (b : bool) (w : World PS RT),
    PeerRouting.forEach_path dht l b w =
    (inr (b || existsb success l),
     set_peerStore w (add_peers dht (peerStore w) (successful_peers l))).
Proof.
  induction l as [|r l IH]; intros Hpeers b w.
  - cbn. now rewrite orb_false_r, set_peerStore_same.
  - cbn [PeerRouting.forEach_path successful_peers flat_map existsb].
    assert (Hl : forall r', In r' l -> success r' = true -> path_peer r' <> None)
      by (intros r' Hr'; apply Hpeers; now right).
    destruct (success r) eqn:Hs.
    + destruct (path_peer r) as [p|] eqn:Hp;
        [|exfalso; now apply (Hpeers r (or_introl eq_refl) Hs)].
      unfold bind, PeerRouting.addressBook_add_. rewrite (IH Hl).
      cbn. now rewrite orb_true_r.
    + rewrite (IH Hl). reflexivity.
Qed.

Lemma forEach_path_keeps (l : list PathResult) :
  forall (b : bool) (w : World PS RT) r w',
    PeerRouting.forEach_path dht l b w = (r, w') ->
    events w' = events w /\ routingTable w' = routingTable w.
Proof.
  induction l as [|x l IH]; intros b w r w' H.
  - cbn in H. injection H as _ <-. now split.
  - cbn [PeerRouting.forEach_path] in H.
    destruct (success x); [|now apply IH in H].
    destruct (path_peer x) as [p|].
    + unfold bind, PeerRouting.addressBook_add_ in H.
      apply IH in H. exact H.
    + cbn in H. injection H as _ <-. now split.
Qed.

Lemma findPeer_query_finish (target : PeerId) (t : Z) (seeds : list PeerId)
      (w : World PS RT) run w1 :
  query_engine dht (id target) (PeerRouting.findPeer_queryFn dht target)
    seeds (with_event w (EvQueryRun (id target) seeds)) = (run, w1) ->
  PeerRouting.findPeer_query dht target t seeds w =
  match pTimeout (settled run) (elapsed run) t with
  | inl error => (inl error, with_event w1 EvQueryStop)
  | inr None => (inl TypeError, with_event w1 EvQueryStop)
  | inr (Some result) =>
      match PeerRouting.forEach_path dht (paths result) false
              (with_event w1 EvQueryStop) with
      | (inl e, w2) => (inl e, w2)
      | (inr false, w2) => (inl (Coded "ERR_NOT_FOUND"), w2)
      | (inr true, w2) =>
          match peerStore_get dht (peerStore w2) target with
          | None => (inl TypeError, w2)
          | Some peerData => (inr (PeerRouting.toPeerData peerData), w2)
          end
      end
  end.
Proof.
  intros Hrun.
  unfold PeerRouting.findPeer_query, PeerRouting.query_run,
    PeerRouting.query_stop.
  unfold bind at 1. unfold bind at 1. unfold emit at 1.
  rewrite Hrun. unfold bind at 1. unfold emit at 1.
  destruct (pTimeout (settled run) (elapsed run) t) as [e|[res|]];
    try reflexivity.
  unfold bind.
  destruct (PeerRouting.forEach_path dht (paths res) false
              (with_event w1 EvQueryStop)) as [[e|[|]] w2]; try reflexivity.
  cbn. now destruct (peerStore_get dht (peerStore w2) target).
Qed.

(** After a query that completed in time with a successful path, and whose
    successful paths all carry a peer, [findPeer] has added those peers to
    the address book in path order and answers with what the peer store
    then holds for the target; without an entry for the target the answer
    is a [TypeError]. *)
Theorem findPeer_success_effect (target : PeerId) (options : FindPeerOptions)
        (w : World PS RT) :
  PeerRouting.reaches_query dht target w ->
  let t := PeerRouting.timeout_or_default options in
  let seeds := PeerRouting.findPeer_seeds dht target w in
  forall run w1 res,
    query_engine dht (id target) (PeerRouting.findPeer_queryFn dht target)
      seeds (with_event w (EvQueryRun (id target) seeds)) = (run, w1) ->
    0 <= t -> elapsed run < t ->
    settled run = inr (Some res) ->
    (forall r, In r (paths res) -> success r = true -> path_peer r <> None) ->
    (exists r, In r (paths res) /\ success r = true) ->
    let ps' := add_peers dht (peerStore w1) (successful_peers (paths res)) in
    PeerRouting.findPeer dht target options w =
    (match peerStore_get dht ps' target with
     | Some stored => inr {| peer_id := stored_id stored;
                             multiaddrs := map multiaddr (addresses stored) |}
     | None => inl TypeError
     end,
     set_peerStore (with_event w1 EvQueryStop) ps').
Proof.
  intros Hreach t seeds run w1 res Hrun H0 Ht Hres Hpeers Hsome ps'.
  rewrite (findPeer_reaches dht target options w Hreach).
  fold t. fold seeds. rewrite (findPeer_query_finish _ _ _ _ _ _ Hrun).
  unfold pTimeout.
  destruct (Z.ltb_spec t 0); [lia|].
  destruct (Z.leb_spec t (elapsed run)); [lia|].
  rewrite Hres, (forEach_path_adds _ Hpeers).
  assert (Hex : existsb success (paths res) = true).
  { apply existsb_exists. destruct Hsome as (r & Hin & Hr). now exists r. }
  rewrite Hex. cbn [orb set_peerStore peerStore with_event].
  fold ps'. now destruct (peerStore_get dht ps' target).
Qed.

(** Whenever [findPeer] has started the query it stops it exactly once,
    whatever the outcome, and adds nothing else to what leaves the process;
    it leaves the routing table as the query left it. *)
Theorem findPeer_stops_query (target : PeerId) (options : FindPeerOptions)
        (w : World PS RT) :
  PeerRouting.reaches_query dht target w ->
  let seeds := PeerRouting.findPeer_seeds dht target w in
  forall run w1,
    query_engine dht (id target) (PeerRouting.findPeer_queryFn dht target)
      seeds (with_event w (EvQueryRun (id target) seeds)) = (run, w1) ->
    forall r w',
      PeerRouting.findPeer dht target options w = (r, w') ->
      events w' = events w1 ++ [EvQueryStop] /\
      routingTable w' = routingTable w1.
Proof.
  intros Hreach seeds run w1 Hrun r w' H.
  rewrite (findPeer_reaches dht target options w Hreach) in H.
  fold seeds in H. rewrite (findPeer_query_finish _ _ _ _ _ _ Hrun) in H.
  destruct (pTimeout _ _ _) as [e|[res|]].
  - injection H as _ <-. now split.
  - destruct (PeerRouting.forEach_path dht (paths res) false
                (with_event w1 EvQueryStop)) as [x w2] eqn:Hloop.
    apply forEach_path_keeps in Hloop. cbn in Hloop.
    destruct x as [e|[|]].
    + injection H as _ <-. exact Hloop.
    + destruct (peerStore_get dht (peerStore w2) target);
        injection H as _ <-; exact Hloop.
    + injection H as _ <-. exact Hloop.
  - injection H as _ <-. now split.
Qed.

End PeerRoutingMore.

Section PeerRoutingYield.
Context {PS RT : Type} (dht : Dht PS RT).

Lemma sorted_split {A} (R : A -> A -> Prop) (l1 l2 : list A) :
  StronglySorted R (l1 ++ l2) ->
  forall x y, In x l1 -> In y l2 -> R x y.
Proof.
  induction l1 as [|a l1 IH]; intros Hs x y Hx Hy; [destruct Hx|].
  cbn in Hs. inversion Hs as [|? ? Hs' Hall]; subst.
  destruct Hx as [<-|Hx].
  - rewrite Forall_forall in Hall. apply Hall, in_or_app. now right.
  - now apply IH.
Qed.

Lemma getClosestPeers_run (k : bytes) (options : ClosestPeersOptions)
      (w : World PS RT) run w1 :
  query_engine dht k (PeerRouting.getClosestPeers_queryFn dht k options)
    (routingTable_closestPeers dht (routingTable w) (sha2_256 dht k)
       (kBucketSize dht))
    (with_event w
       (EvQueryRun k
          (routingTable_closestPeers dht (routingTable w) (sha2_256 dht k)
             (kBucketSize dht)))) = (run, w1) ->
  PeerRouting.getClosestPeers dht k options w =
  match settled run with
  | inl e => (inl e, w1)
  | inr None => (inr [], w1)
  | inr (Some res) =>
      match finalSet res with
      | None => (inr [], w1)
      | Some members =>
          match utils.sortClosestPeers (sha2_256 dht) members
                  (sha2_256 dht k) with
          | inl e => (inl e, w1)
          | inr sorted => (inr (firstn (kBucketSize dht) sorted), w1)
          end
      end
  end.
Proof.
  intros Hrun.
  unfold PeerRouting.getClosestPeers, PeerRouting.query_run,
    utils.convertBuffer.
  unfold bind at 1. unfold get_world at 1.
  unfold bind at 1. unfold bind at 1. unfold emit at 1.
  rewrite Hrun. unfold bind at 1. unfold lift at 1.
  destruct (settled run) as [e|[res|]]; try reflexivity.
  destruct (finalSet res) as [members|]; [|reflexivity].
  unfold bind, lift.
  now destruct (utils.sortClosestPeers _ _ _).
Qed.

(** [getClosestPeers] yields the [kBucketSize] members of [finalSet] closest
    to the key, or all of them if there are fewer: every member it leaves
    out is at least as far from the key as every member it yields. *)
Theorem getClosestPeers_closest (k : bytes) (options : ClosestPeersOptions)
        (w : World PS RT) :
  digest_32 (sha2_256 dht) ->
  let seeds :=
    routingTable_closestPeers dht (routingTable w) (sha2_256 dht k)
      (kBucketSize dht) in
  forall run w1 res members,
    query_engine dht k (PeerRouting.getClosestPeers_queryFn dht k options)
      seeds (with_event w (EvQueryRun k seeds)) = (run, w1) ->
    settled run = inr (Some res) -> finalSet res = Some members ->
    exists yielded rest,
      PeerRouting.getClosestPeers dht k options w = (inr yielded, w1) /\
      Permutation members (yielded ++ rest) /\
      List.length yielded = Nat.min (kBucketSize dht) (List.length members) /\
      forall y r, In y yielded -> In r rest ->
        kad_distance (sha2_256 dht) (id y) k <=
        kad_distance (sha2_256 dht) (id r) k.
Proof.
  intros Hsha seeds run w1 res members Hrun Hres Hset.
  destruct (sortClosestPeers_sorted (sha2_256 dht) Hsha members k)
    as (sorted & Hsort & Hperm & Hsorted).
  exists (firstn (kBucketSize dht) sorted), (skipn (kBucketSize dht) sorted).
  split; [|split; [|split]].
  - rewrite (getClosestPeers_run k options w run w1 Hrun).
    now rewrite Hres, Hset, Hsort.
  - now rewrite firstn_skipn.
  - rewrite length_firstn. now rewrite (Permutation_length Hperm).
  - rewrite <- (firstn_skipn (kBucketSize dht) sorted) in Hsorted.
    intros y r. apply (sorted_split _ _ _ Hsorted).
Qed.

(** [getClosestPeers] passes an error of the query on, and yields nothing
    when the query gives no result, no [finalSet] or an empty one. *)
Theorem getClosestPeers_nothing (k : bytes) (options : ClosestPeersOptions)
        (w : World PS RT) :
  let seeds :=
    routingTable_closestPeers dht (routingTable w) (sha2_256 dht k)
      (kBucketSize dht) in
  forall run w1,
    query_engine dht k (PeerRouting.getClosestPeers_queryFn dht k options)
      seeds (with_event w (EvQueryRun k seeds)) = (run, w1) ->
    (forall e, settled run = inl e ->
       PeerRouting.getClosestPeers dht k options w = (inl e, w1)) /\
    (settled run = inr None \/
     (exists res, settled run = inr (Some res) /\
        (finalSet res = None \/ finalSet res = Some [])) ->
     PeerRouting.getClosestPeers dht k options w = (inr [], w1)).
Proof.
  intros seeds run w1 Hrun.
  rewrite (getClosestPeers_run k options w run w1 Hrun). split.
  - intros e He. now rewrite He.
  - intros [Hn|(res & Hres & [Hf|Hf])].
    + now rewrite Hn.
    + now rewrite Hres, Hf.
    + rewrite Hres, Hf. cbn. now rewrite firstn_nil.
Qed.

(** A public key that the peer store already holds is returned as it is:
    nothing is sent, nothing is looked up and nothing changes. *)
Theorem getPublicKey_local_copy (peer : PeerId) (w : World PS RT)
        (stored : StoredPeer) (pk : PubKey) :
  peerStore_get dht (peerStore w) peer = Some stored ->
  pubKey (stored_id stored) = Some pk ->
  PeerRouting.getPublicKey dht peer w = (inr (Some pk), w).
Proof.
  intros Hs Hk. unfold PeerRouting.getPublicKey, bind, get_world.
  now rewrite Hs, Hk.
Qed.

(** When the node path fails for a stored peer without a key,
    [getPublicKey] looks up the key "/pk/" followed by the peer's id in the
    DHT: an error of the lookup or of [unmarshalPublicKey] is passed on, and
    an unmarshalled key is returned after the address book has been given
    the peer with that key and the addresses read at the start. *)
Theorem getPublicKey_dht_fallback (peer : PeerId) (w : World PS RT)
        (stored : StoredPeer) :
  peerStore_get dht (peerStore w) peer = Some stored ->
  pubKey (stored_id stored) = None ->
  forall e w1,
    PeerRouting.getPublicKeyFromNode dht peer w = (inl e, w1) ->
    let pkKey := utils.keyForPublicKey peer in
    let asked := with_event w1 (EvGet pkKey) in
    (forall e2 w2, get_lookup dht pkKey asked = (inl e2, w2) ->
       PeerRouting.getPublicKey dht peer w = (inl e2, w2)) /\
    (forall value w2 e3, get_lookup dht pkKey asked = (inr value, w2) ->
       unmarshalPublicKey dht value = inl e3 ->
       PeerRouting.getPublicKey dht peer w = (inl e3, w2)) /\
    (forall value w2 pk, get_lookup dht pkKey asked = (inr value, w2) ->
       unmarshalPublicKey dht value = inr pk ->
       PeerRouting.getPublicKey dht peer w =
       (inr (Some pk),
        set_peerStore w2
          (addressBook_add dht (peerStore w2)
             (new_PeerId (id peer) None (Some pk))
             (map multiaddr (addresses stored))))).
Proof.
  intros Hs Hk e w1 Hnode pkKey asked.
  assert (Hg : PeerRouting.getPublicKey dht peer w =
            match get_lookup dht pkKey asked with
            | (inl e2, w2) => (inl e2, w2)
            | (inr value, w2) =>
                match unmarshalPublicKey dht value with
                | inl e3 => (inl e3, w2)
                | inr pk =>
                    (inr (Some pk),
                     set_peerStore w2
                       (addressBook_add dht (peerStore w2)
                          (new_PeerId (id peer) None (Some pk))
                          (map multiaddr (addresses stored))))
                end
            end).
  { unfold PeerRouting.getPublicKey. unfold bind at 1. unfold get_world at 1.
    rewrite Hs, Hk. unfold bind at 1.
    unfold PeerRouting.getPublicKey_fetch, try_catch. rewrite Hnode.
    unfold PeerRouting.getPublicKey_fromDht, PeerRouting.dht_get.
    unfold bind at 1. unfold bind at 1. unfold emit at 1.
    fold pkKey. fold asked.
    destruct (get_lookup dht pkKey asked) as [[e2|value] w2]; [reflexivity|].
    unfold bind, lift, ret.
    now destruct (unmarshalPublicKey dht value). }
  rewrite Hg. split; [|split].
  - intros e2 w2 H. now rewrite H.
  - intros value w2 e3 H Hu. now rewrite H, Hu.
  - intros value w2 pk H Hu. now rewrite H, Hu.
Qed.

End PeerRoutingYield.

Section PeerRoutingSteps.
Context {PS RT : Type} (dht : Dht PS RT).

Lemma closerPeersSingle_cases (k : bytes) (peer : PeerId) (w : World PS RT) :
  PeerRouting.closerPeersSingle dht k peer w =
  match network_exchange dht peer (new_Message FIND_NODE k 0)
          (with_event w (EvSendRequest peer (new_Message FIND_NODE k 0))) with
  | (inl e, w') => (inl e, w')
  | (inr reply, w') =>
      (inr (filter (fun pd => negb (isEqual (peerId dht) (peer_id pd)))
                   (closerPeers reply)),
       set_peerStore w'
         (add_peers dht (peerStore w')
            (filter (fun pd => negb (isEqual (peerId dht) (peer_id pd)))
                    (closerPeers reply))))
  end.
Proof.
  unfold PeerRouting.closerPeersSingle, PeerRouting._findPeerSingle,
    PeerRouting.network_sendRequest.
  unfold bind at 1. unfold bind at 1. unfold emit at 1.
  cbn [id].
  destruct (network_exchange dht peer _ _) as [[e|reply] w'];
    [reflexivity|].
  apply mapM_add_peers.
Qed.

(** A step of the query function of [getClosestPeers] fails when the request
    fails; otherwise it carries the reply's closer peers without the node
    itself, never a winning peer, and sets [pathComplete] exactly when the
    lookup is shallow. *)
Theorem getClosestPeers_queryFn_step (k : bytes)
        (options : ClosestPeersOptions) (peer : PeerId) (w : World PS RT) :
  let request := new_Message FIND_NODE k 0 in
  let sent := with_event w (EvSendRequest peer request) in
  (forall e w',
     network_exchange dht peer request sent = (inl e, w') ->
     PeerRouting.getClosestPeers_queryFn dht k options peer w = (inl e, w')) /\
  (forall reply w',
     network_exchange dht peer request sent = (inr reply, w') ->
     exists step w'',
       PeerRouting.getClosestPeers_queryFn dht k options peer w =
         (inr step, w'') /\
       step_peer step = None /\ queryComplete step = None /\
       step_closerPeers step =
         Some (filter (fun pd => negb (isEqual (peerId dht) (peer_id pd)))
                      (closerPeers reply)) /\
       (pathComplete step = Some true <-> shallow options = Some true) /\
       (pathComplete step = None <-> shallow options <> Some true)).
Proof.
  intros request sent.
  unfold PeerRouting.getClosestPeers_queryFn, bind.
  rewrite closerPeersSingle_cases. fold request. fold sent. split.
  - intros e w' H. now rewrite H.
  - intros reply w' H. rewrite H. eexists. eexists.
    split; [reflexivity|]. cbn.
    repeat split; try reflexivity;
      destruct (shallow options) as [[|]|]; try congruence; try discriminate.
Qed.

End PeerRoutingSteps.

(** ** The further theorems at work on the small node *)

Lemma closerPeersSingle_effect_witness :
  PeerRouting.closerPeersSingle Toy.carol_node [3; 3] Toy.bob Toy.w_bob_table =
  (inr [Toy.dave_data],
   set_peerStore (with_event Toy.w_bob_table (EvSendRequest Toy.bob Toy.find_key))
     (add_peers Toy.carol_node [] [Toy.dave_data])).
Proof.
  exact (proj1 (proj2 (closerPeersSingle_effect Toy.carol_node [3; 3] Toy.bob
                         Toy.w_bob_table) _ _ eq_refl)).
Defined.

Lemma getPublicKeyFromNode_raises_witness :
  fst (PeerRouting.getPublicKeyFromNode Toy.key_node Toy.keyed
         Toy.w_keyed_stored) = inl TypeError /\
  fst (PeerRouting.getPublicKeyFromNode Toy.finder Toy.bob Toy.w_bob_table) =
    inl TypeError /\
  fst (PeerRouting.getPublicKeyFromNode Toy.finder Toy.carol Toy.w_bob_table) =
    inl (Coded "ERR_CONNECTION_FAILED").
Proof.
  split; [|split].
  - rewrite (proj2 (proj2 (getPublicKeyFromNode_raises Toy.key_node
                             Toy.keyed Toy.w_keyed_stored))
               _ _ eq_refl).
    reflexivity.
  - rewrite (proj2 (proj2 (getPublicKeyFromNode_raises Toy.finder
                             Toy.bob Toy.w_bob_table))
               _ _ eq_refl).
    reflexivity.
  - rewrite (proj1 (proj2 (getPublicKeyFromNode_raises Toy.finder
                             Toy.carol Toy.w_bob_table))
               _ _ eq_refl).
    reflexivity.
Defined.


Lemma findPeer_success_effect_witness :
  PeerRouting.findPeer Toy.finder Toy.carol Toy.default_options
    Toy.w_bob_table =
  (inr Toy.carol_data,
   set_peerStore
     (with_event (snd (Toy.run_for Toy.finder Toy.carol)) EvQueryStop)
     [Toy.stored_carol]).
Proof.
  refine (findPeer_success_effect Toy.finder Toy.carol Toy.default_options
            Toy.w_bob_table
            (toy_reaches_query Toy.finder Toy.carol eq_refl eq_refl eq_refl)
            (fst (Toy.run_for Toy.finder Toy.carol))
            (snd (Toy.run_for Toy.finder Toy.carol))
            {| paths := [{| success := true; path_peer := Some Toy.carol_data |}];
               finalSet := Some [Toy.bob] |}
            eq_refl _ _ eq_refl _ _).
  - vm_compute. discriminate.
  - vm_compute. reflexivity.
  - intros r [<-|[]] _. discriminate.
  - eexists. split; [left; reflexivity | reflexivity].
Defined.

Lemma findPeer_stops_query_witness :
  events (snd (PeerRouting.findPeer Toy.slow_finder Toy.carol
                 Toy.default_options Toy.w_bob_table)) =
    events (snd (Toy.run_for Toy.slow_finder Toy.carol)) ++ [EvQueryStop] /\
  routingTable (snd (PeerRouting.findPeer Toy.slow_finder Toy.carol
                       Toy.default_options Toy.w_bob_table)) =
    routingTable (snd (Toy.run_for Toy.slow_finder Toy.carol)).
Proof.
  exact (findPeer_stops_query Toy.slow_finder Toy.carol Toy.default_options
           Toy.w_bob_table
           (toy_reaches_query Toy.slow_finder Toy.carol eq_refl eq_refl eq_refl)
           (fst (Toy.run_for Toy.slow_finder Toy.carol))
           (snd (Toy.run_for Toy.slow_finder Toy.carol)) eq_refl
           _ _ (surjective_pairing _)).
Defined.

Lemma getClosestPeers_closest_witness :
  exists yielded rest,
    PeerRouting.getClosestPeers Toy.finder [3; 3] Toy.deep Toy.w_bob_table =
      (inr yielded, snd Toy.closest_run) /\
    Permutation [Toy.bob; Toy.dave; Toy.carol] (yielded ++ rest) /\
    List.length yielded = 2%nat /\
    forall y r, In y yielded -> In r rest ->
      kad_distance Toy.sha (id y) [3; 3] <= kad_distance Toy.sha (id r) [3; 3].
Proof.
  exact (getClosestPeers_closest Toy.finder [3; 3] Toy.deep Toy.w_bob_table
           toy_sha_digest (fst Toy.closest_run) (snd Toy.closest_run)
           _ [Toy.bob; Toy.dave; Toy.carol] eq_refl eq_refl eq_refl).
Defined.

Lemma getClosestPeers_nothing_witness :
  PeerRouting.getClosestPeers Toy.broken [3; 3] Toy.deep Toy.w_bob_table =
    (inl (Coded "ERR_QUERY"),
     with_event Toy.w_bob_table (EvQueryRun [3; 3] [Toy.bob])) /\
  PeerRouting.getClosestPeers Toy.finder [3; 3] Toy.deep Toy.w_empty =
    (inr [], with_event Toy.w_empty (EvQueryRun [3; 3] [])).
Proof.
  split.
  - exact (proj1 (getClosestPeers_nothing Toy.broken [3; 3] Toy.deep
                    Toy.w_bob_table _ _ eq_refl) _ eq_refl).
  - apply (proj2 (getClosestPeers_nothing Toy.finder [3; 3] Toy.deep
                    Toy.w_empty _ _ eq_refl)).
    right. eexists. split; [reflexivity|]. right. reflexivity.
Defined.

Lemma getPublicKey_local_copy_witness :
  PeerRouting.getPublicKey Toy.key_node Toy.bob Toy.w_bob_keyed =
  (inr (Some [9; 9]), Toy.w_bob_keyed).
Proof.
  exact (getPublicKey_local_copy Toy.key_node Toy.bob Toy.w_bob_keyed
           Toy.bob_with_key [9; 9] eq_refl eq_refl).
Defined.

Lemma getPublicKey_dht_fallback_witness :
  fst (PeerRouting.getPublicKey Toy.key_node_dht Toy.bob Toy.w_bob_stored) =
    inr (Some [7; 7]) /\
  fst (PeerRouting.getPublicKey Toy.key_node Toy.bob Toy.w_bob_stored) =
    inl (Coded "ERR_NOT_FOUND").
Proof.
  split.
  - rewrite (proj2 (proj2 (getPublicKey_dht_fallback Toy.key_node_dht Toy.bob
                             Toy.w_bob_stored (Toy.knows Toy.bob)
                             eq_refl eq_refl _ _ eq_refl))
               [7; 7] _ [7; 7] eq_refl eq_refl).
    reflexivity.
  - rewrite (proj1 (getPublicKey_dht_fallback Toy.key_node Toy.bob
                      Toy.w_bob_stored (Toy.knows Toy.bob)
                      eq_refl eq_refl _ _ eq_refl)
               _ _ eq_refl).
    reflexivity.
Defined.

Lemma getClosestPeers_queryFn_step_witness :
  exists step w'',
    PeerRouting.getClosestPeers_queryFn Toy.carol_node [3; 3] Toy.deep Toy.bob
      Toy.w_bob_table = (inr step, w'') /\
    step_peer step = None /\ queryComplete step = None /\
    step_closerPeers step = Some [Toy.dave_data] /\
    (pathComplete step = Some true <-> shallow Toy.deep = Some true) /\
    (pathComplete step = None <-> shallow Toy.deep <> Some true).
Proof.
  exact (proj2 (getClosestPeers_queryFn_step Toy.carol_node [3; 3] Toy.deep
                  Toy.bob Toy.w_bob_table) _ _ eq_refl).
Defined.
